(** * web_app.py: the job store, the generation worker and the HTTP handlers

    A shallow embedding of [src/web_app.py] (the Flask front end of the map
    poster generator) and the properties of its job life cycle.

    - Python values that arrive in a request body are [json] values; a
      builtin that may raise returns an [outcome].
    - The job table [jobs] is a [gmap string job]. A block run under
      [jobs_lock] is taken as one function on the table
      ([update_job_status], [get_status]); the machine of the last part of
      the definitions runs the same blocks statement by statement, and the
      lock is shown to make the two views agree.
    - The collaborator module [create_map_poster] (imported as [poster]) is
      not part of the source at hand: its functions are the fields of a
      [poster_module] record, each call either returning or raising.
    - Threads are explicit: a [world] holds the job table, the global
      [poster.THEME] and the pool of worker threads, and a scheduler label
      picks which request or which worker runs next. *)

From Stdlib Require Import ZArith QArith String Ascii List.
From stdpp Require Import base gmap strings list pretty.

Set Warnings "-register-all".
Local Open Scope string_scope.
Local Open Scope Z_scope.

(** ** Python values and exceptions *)

(** A Python float as far as [int()] can tell: finite (a rational), an
    infinity or a NaN. *)
Inductive pyfloat : Type :=
  | FFinite (q : Q)
  | FInf (negative : bool)
  | FNan.

(** A value decoded from a JSON request body. *)
Inductive json : Type :=
  | JNull
  | JBool (b : bool)
  | JInt (z : Z)
  | JFloat (f : pyfloat)
  | JStr (s : string)
  | JList (l : list json)
  | JDict (d : list (string * json)).

(** The exception classes the handlers can tell apart. [NotAnException] stands
    for the classes that derive from [BaseException] but not from [Exception]
    ([SystemExit], [KeyboardInterrupt], [GeneratorExit]). *)
Inductive exn_class : Type :=
  | ValueError
  | TypeError
  | AttributeError
  | OverflowError
  | OtherException
  | NotAnException.

(** An exception raised by the collaborator: its class and [str(e)]. *)
Record exn : Type := Exn { exn_cls : exn_class; exn_str : string }.

(** [isinstance(e, Exception)] *)
Definition is_Exception (e : exn) : bool :=
  match exn_cls e with
  | NotAnException => false
  | _ => true
  end.

(** The result of a call that may raise. *)
Inductive outcome (E A : Type) : Type :=
  | Ret (a : A)
  | Raise (e : E).
Arguments Ret {E A} a.
Arguments Raise {E A} e.

#[global] Instance outcome_ret {E} : MRet (outcome E) := fun _ a => Ret a.
#[global] Instance outcome_bind {E} : MBind (outcome E) := fun _ _ k m =>
  match m with
  | Ret a => k a
  | Raise e => Raise e
  end.
#[global] Instance outcome_fmap {E} : FMap (outcome E) := fun _ _ f m =>
  match m with
  | Ret a => Ret (f a)
  | Raise e => Raise e
  end.

(** ** Strings: [str.strip], [os.path.basename], [int(str)]

    A [string] is a Python [str] in UTF-8, which is how Rocq reads a string
    literal: a character of the ASCII range is one [ascii], any other
    character is a sequence of two to four, none of them in the ASCII
    range. *)

Definition byte (a : ascii) : Z := Z.of_nat (nat_of_ascii a).

(** White space is what [str.strip()] removes and [str.isspace()] accepts
    (CPython's [_PyUnicode_IsWhitespace]). In one byte: U+0009 to U+000D,
    U+001C to U+001F and U+0020. *)
Definition space_1byte (a : ascii) : bool :=
  ((9 <=? byte a) && (byte a <=? 13)) || ((28 <=? byte a) && (byte a <=? 32)).

(** In two bytes: U+0085 (C2 85) and U+00A0 (C2 A0). *)
Definition space_2bytes (a b : ascii) : bool :=
  (byte a =? 194) && ((byte b =? 133) || (byte b =? 160)).

(** In three bytes: U+1680 (E1 9A 80), U+2000 to U+200A (E2 80 80 to
    E2 80 8A), U+2028, U+2029 and U+202F (E2 80 A8, E2 80 A9, E2 80 AF),
    U+205F (E2 81 9F) and U+3000 (E3 80 80). *)
Definition space_3bytes (a b c : ascii) : bool :=
  ((byte a =? 225) && (byte b =? 154) && (byte c =? 128)) ||
  ((byte a =? 226) && (byte b =? 128) &&
     (((128 <=? byte c) && (byte c <=? 138)) ||
      (byte c =? 168) || (byte c =? 169) || (byte c =? 175))) ||
  ((byte a =? 226) && (byte b =? 129) && (byte c =? 159)) ||
  ((byte a =? 227) && (byte b =? 128) && (byte c =? 128)).

(** The bytes that are left when the white space at the front is removed.
    With [from_end], the bytes are those of a string read from its end, so
    the bytes of a character come last byte first. *)
Fixpoint skip_spaces (from_end : bool) (l : list ascii) : list ascii :=
  match l with
  | [] => []
  | a :: l1 =>
      if space_1byte a then skip_spaces from_end l1
      else
        match l1 with
        | [] => l
        | b :: l2 =>
            if (if from_end then space_2bytes b a else space_2bytes a b)
            then skip_spaces from_end l2
            else
              match l2 with
              | [] => l
              | c :: l3 =>
                  if (if from_end then space_3bytes c b a else space_3bytes a b c)
                  then skip_spaces from_end l3
                  else l
              end
        end
  end.

(** [s.lstrip()] *)
Definition lstrip (s : string) : string :=
  string_of_list_ascii (skip_spaces false (list_ascii_of_string s)).

(** [s.rstrip()] *)
Definition rstrip (s : string) : string :=
  string_of_list_ascii (rev (skip_spaces true (rev (list_ascii_of_string s)))).

(** [s.strip()] *)
Definition strip (s : string) : string := lstrip (rstrip s).

Definition is_slash (c : ascii) : bool := Ascii.eqb c "/"%char.

Fixpoint has_slash (p : string) : bool :=
  match p with
  | EmptyString => false
  | String c p' => is_slash c || has_slash p'
  end.

(** [os.path.basename(p)] on POSIX: what follows the last slash of [p]. *)
Fixpoint basename (p : string) : string :=
  match p with
  | EmptyString => EmptyString
  | String c p' =>
      if has_slash p' then basename p'
      else if is_slash c then p' else p
  end.

(** [sub in s] for two strings. *)
Fixpoint contains (sub s : string) : bool :=
  String.prefix sub s ||
  match s with
  | EmptyString => false
  | String _ s' => contains sub s'
  end.

(** Modelled from the spec: [poster.generate_output_filename] belongs to the
    collaborator module, which is not part of the source at hand. The spec
    has the poster rendered "to a file computed from a deterministic
    output-name function", so the path that function returns names a file:
    it is not empty and does not end in a slash. *)
Fixpoint names_file (p : string) : bool :=
  match p with
  | EmptyString => false
  | String c EmptyString => negb (is_slash c)
  | String _ p' => names_file p'
  end.

Definition digit_value (c : ascii) : option Z :=
  if (48 <=? byte c) && (byte c <=? 57) then Some (byte c - 48) else None.

(** The digits at the front of an [int()] literal, as [PyLong_FromString]
    scans them in base 10: decimal digits, with single underscores allowed
    between two digits. [after_digit] tells whether the previous character
    was a digit. The result is the value, the number of digits, and what
    follows them; [None] when there is no digit, or an underscore that is
    not between two digits. *)
Fixpoint scan_digits (s : string) (acc : Z) (digits : nat) (after_digit : bool)
    : option (Z * nat * string) :=
  match s with
  | EmptyString => if after_digit then Some (acc, digits, EmptyString) else None
  | String c s' =>
      match digit_value c with
      | Some d => scan_digits s' (10 * acc + d) (S digits) true
      | None =>
          if Ascii.eqb c "_"%char
          then if after_digit then scan_digits s' acc digits false else None
          else if after_digit then Some (acc, digits, s) else None
      end
  end.

(** The white space that [PyLong_FromString] skips ([Py_ISSPACE]): U+0009 to
    U+000D and U+0020. *)
Definition c_space (a : ascii) : bool :=
  ((9 <=? byte a) && (byte a <=? 13)) || (byte a =? 32).

Fixpoint skip_c_spaces (s : string) : string :=
  match s with
  | EmptyString => EmptyString
  | String a s' => if c_space a then skip_c_spaces s' else s
  end.

(** The limit on the digits of a literal (Python 3.11 and later):
    [max_str_digits] is [sys.get_int_max_str_digits()], 0 when there is no
    limit; literals of up to 640 digits are never refused. *)
Definition too_many_digits (max_str_digits digits : nat) : bool :=
  (640 <? digits)%nat && (0 <? max_str_digits)%nat && (max_str_digits <? digits)%nat.

(** [int(s)] for a string of ASCII characters ([PyLong_FromString] with base
    10): white space, an optional sign, digits, white space. [None] is
    [ValueError]. *)
Definition int_of_ascii (max_str_digits : nat) (s : string) : option Z :=
  let '(negative, literal) :=
    match skip_c_spaces s with
    | String "+"%char r => (false, r)
    | String "-"%char r => (true, r)
    | t => (false, t)
    end in
  match scan_digits literal 0 0 false with
  | Some (z, digits, rest) =>
      if negb (bool_decide (skip_c_spaces rest = EmptyString)) then None
      else if too_many_digits max_str_digits digits then None
      else Some (if negative then - z else z)
  | None => None
  end.

(** [s.isascii()] *)
Fixpoint is_ascii (s : string) : bool :=
  match s with
  | EmptyString => true
  | String a s' => (byte a <? 128) && is_ascii s'
  end.

(** [int(f)] for a float truncates toward zero. *)
Definition int_of_float (f : pyfloat) : outcome exn_class Z :=
  match f with
  | FFinite q => Ret (Z.quot (Qnum q) (Z.pos (Qden q)))
  | FInf _ => Raise OverflowError
  | FNan => Raise ValueError
  end.

(** What depends on the Python interpreter that runs the application and is
    not reproduced here: the text it prints for a float, a list or a dict
    inside an f-string; the conversion that [int()] applies to a string that
    is not ASCII before it reads it
    ([_PyUnicode_TransformDecimalAndSpaceToASCII], which follows the Unicode
    database of the interpreter: a decimal digit of any script becomes the
    ASCII digit, white space becomes a space); and
    [sys.get_int_max_str_digits()]. *)
Record interpreter : Type := Interpreter {
  py_repr : json -> string;
  decimal_and_space_to_ascii : string -> string;
  int_max_str_digits : nat
}.

(** [int(s)] for a string: a string that is ASCII is read as it is. *)
Definition int_of_str (python : interpreter) (s : string) : option Z :=
  int_of_ascii (int_max_str_digits python)
    (if is_ascii s then s else decimal_and_space_to_ascii python s).

(** The builtin [int(v)] on a decoded JSON value. *)
Definition py_int (python : interpreter) (v : json) : outcome exn_class Z :=
  match v with
  | JInt z => Ret z
  | JBool b => Ret (if b then 1 else 0)
  | JFloat f => int_of_float f
  | JStr s =>
      match int_of_str python s with
      | Some z => Ret z
      | None => Raise ValueError
      end
  | JNull | JList _ | JDict _ => Raise TypeError
  end.

(** [v.strip()]: only [str] has the method. *)
Definition py_strip (v : json) : outcome exn_class string :=
  match v with
  | JStr s => Ret (strip s)
  | _ => Raise AttributeError
  end.

Fixpoint assoc_get (key : string) (d : list (string * json)) : option json :=
  match d with
  | [] => None
  | (k, v) :: d' => if String.eqb k key then Some v else assoc_get key d'
  end.

(** [data.get(key, dflt)]: only [dict] has the method. A key that is present
    with the value [null] yields [None], not the default. *)
Definition py_get (data : json) (key : string) (dflt : json) : outcome exn_class json :=
  match data with
  | JDict d => Ret (default dflt (assoc_get key d))
  | _ => Raise AttributeError
  end.

(** The value of a field of the request body, with the default of
    [data.get(key, default)]. *)
Definition field (d : list (string * json)) (key : string) (dflt : json) : json :=
  default dflt (assoc_get key d).

(** ** The job table (lines 22-39) *)

Record job_params : Type := JobParams {
  p_city : string;
  p_country : string;
  p_theme : string;
  p_distance : Z;
  p_display_name : option string
}.

Record job : Type := Job {
  job_status : string;
  job_progress : Z;
  job_result : option string;
  job_error : option string;
  job_params_of : job_params
}.

Definition set_status (v : string) (j : job) : job :=
  Job v (job_progress j) (job_result j) (job_error j) (job_params_of j).
Definition set_progress (v : Z) (j : job) : job :=
  Job (job_status j) v (job_result j) (job_error j) (job_params_of j).
Definition set_result (v : string) (j : job) : job :=
  Job (job_status j) (job_progress j) (Some v) (job_error j) (job_params_of j).
Definition set_error (v : string) (j : job) : job :=
  Job (job_status j) (job_progress j) (job_result j) (Some v) (job_params_of j).

(** [if arg is not None: j[field] = arg] *)
Definition set_if_given {A} (setter : A -> job -> job) (arg : option A) (j : job) : job :=
  match arg with
  | Some v => setter v j
  | None => j
  end.

(** The writes of [update_job_status] to one record, in program order. *)
Definition apply_update (status : string) (progress : option Z)
    (result error : option string) (j : job) : job :=
  set_if_given set_error error
    (set_if_given set_result result
      (set_if_given set_progress progress
        (set_status status j))).

(** [update_job_status(job_id, status, progress=None, result=None, error=None)]:
    the body of the [with jobs_lock:] block. *)
Definition update_job_status (job_id status : string) (progress : option Z)
    (result error : option string) (jobs : gmap string job) : gmap string job :=
  match jobs !! job_id with
  | Some j => <[job_id := apply_update status progress result error j]> jobs
  | None => jobs
  end.

(** ** The collaborator and the shared state *)

(** [import create_map_poster as poster]: what a call of each function does at
    one moment. The module is outside this file's source, so nothing is
    assumed about it: a different [poster_module] may be supplied at every
    scheduling step. *)
Record poster_module : Type := PosterModule {
  get_available_themes : outcome exn (list string);
  get_coordinates : string -> string -> outcome exn json;
  load_theme : string -> outcome exn json;
  generate_output_filename : string -> string -> outcome exn string;
  create_poster :
    string -> string -> json -> Z -> string -> option string -> outcome exn unit
}.

(** How a call of [run_generation] ended. *)
Inductive exit : Type :=
  | Completed (output_file : string)   (* line 70 was executed *)
  | Caught (e : exn).                  (* the handler, lines 72-75, ran *)

(** Where a worker thread stands in [run_generation]: at the call, after one
    of the updates of lines 49, 53, 57 and 64 (with the local variables that
    are live there), returned, or killed by an exception that the handler does
    not catch. *)
Inductive position : Type :=
  | Spawned
  | Geocoding
  | LoadingTheme (coords : json)
  | Downloading (coords : json)
  | Rendering (coords : json) (output_file : string)
  | Returned (how : exit)
  | Died (e : exn).

(** A thread created at lines 157-162: [args] and its program position. *)
Record worker : Type := Worker {
  w_job_id : string;
  w_city : string;
  w_country : string;
  w_theme_name : string;
  w_distance : Z;
  w_display_name : option string;
  w_at : position
}.

(** The state shared by all threads: the [jobs] dictionary, the global
    [poster.THEME] and the threads started so far. *)
Record world : Type := World {
  jobs : gmap string job;
  THEME : option json;
  threads : list worker
}.

(** ** Code that updates the shared state and may raise *)

Definition M (A : Type) : Type := world -> outcome exn A * world.

#[global] Instance M_ret : MRet M := fun _ a w => (Ret a, w).
#[global] Instance M_bind : MBind M := fun _ _ k m w =>
  match m w with
  | (Ret a, w') => k a w'
  | (Raise e, w') => (Raise e, w')
  end.

(** A call into the collaborator. *)
Definition call {A} (r : outcome exn A) : M A := fun w => (r, w).

(** [update_job_status(...)] as a statement. *)
Definition update (job_id status : string) (progress : option Z)
    (result error : option string) : M unit := fun w =>
  (Ret tt,
   World (update_job_status job_id status progress result error (jobs w))
         (THEME w) (threads w)).

(** [poster.THEME = t] *)
Definition assign_THEME (t : json) : M unit := fun w =>
  (Ret tt, World (jobs w) (Some t) (threads w)).

(** [try: body  except Exception as e: handler(e)] *)
Definition try_except_Exception {A} (body : M A) (handler : exn -> M A) : M A :=
  fun w =>
    match body w with
    | (Raise e, w') => if is_Exception e then handler e w' else (Raise e, w')
    | r => r
    end.

(** [display_name if display_name else city] *)
Definition filename_city_of (display_name : option string) (city : string) : string :=
  match display_name with
  | Some (String c s) => String c s
  | _ => city
  end.

(** ** The generation worker (lines 42-75) *)

(** The [try] block, lines 48-70. *)
Definition run_generation_try (P : poster_module) (job_id city country theme_name : string)
    (distance : Z) (display_name : option string) : M unit :=
  update job_id "geocoding" (Some 10) None None ;;
  coords ← call (get_coordinates P city country);
  update job_id "loading_theme" (Some 20) None None ;;
  theme ← call (load_theme P theme_name);
  assign_THEME theme ;;
  update job_id "downloading" (Some 30) None None ;;
  let filename_city := filename_city_of display_name city in
  output_file ← call (generate_output_filename P filename_city theme_name);
  update job_id "rendering" (Some 50) None None ;;
  call (create_poster P city country coords distance output_file display_name) ;;
  let filename := basename output_file in
  update job_id "complete" (Some 100) (Some filename) None.

(** The handler, lines 72-75. *)
Definition run_generation_except (job_id : string) (e : exn) : M unit :=
  let error_msg := exn_str e in
  update job_id "error" None None (Some error_msg).

Definition run_generation (P : poster_module) (job_id city country theme_name : string)
    (distance : Z) (display_name : option string) : M unit :=
  try_except_Exception
    (run_generation_try P job_id city country theme_name distance display_name)
    (run_generation_except job_id).

(** ** The worker as a thread: one scheduling step

    The shared state changes only inside [update_job_status] and at the
    assignment of [poster.THEME], so a thread is scheduled in units that end
    with the next update: from each position, the calls that follow it, then
    the update, under the same handler as the whole [try] block. *)

Definition at_position (pos : position) (t : worker) : worker :=
  Worker (w_job_id t) (w_city t) (w_country t) (w_theme_name t) (w_distance t)
         (w_display_name t) pos.

Definition resume (P : poster_module) (t : worker) : M position :=
  let job_id := w_job_id t in
  match w_at t with
  | Spawned =>
      update job_id "geocoding" (Some 10) None None ;;
      mret Geocoding
  | Geocoding =>
      coords ← call (get_coordinates P (w_city t) (w_country t));
      update job_id "loading_theme" (Some 20) None None ;;
      mret (LoadingTheme coords)
  | LoadingTheme coords =>
      theme ← call (load_theme P (w_theme_name t));
      assign_THEME theme ;;
      update job_id "downloading" (Some 30) None None ;;
      mret (Downloading coords)
  | Downloading coords =>
      let filename_city := filename_city_of (w_display_name t) (w_city t) in
      output_file ← call (generate_output_filename P filename_city (w_theme_name t));
      update job_id "rendering" (Some 50) None None ;;
      mret (Rendering coords output_file)
  | Rendering coords output_file =>
      call (create_poster P (w_city t) (w_country t) coords (w_distance t)
              output_file (w_display_name t)) ;;
      let filename := basename output_file in
      update job_id "complete" (Some 100) (Some filename) None ;;
      mret (Returned (Completed output_file))
  | Returned how => mret (Returned how)
  | Died e => mret (Died e)
  end.

Definition worker_step (P : poster_module) (t : worker) (w : world) : worker * world :=
  match try_except_Exception (resume P t)
          (fun e => run_generation_except (w_job_id t) e ;; mret (Returned (Caught e))) w with
  | (Ret pos, w') => (at_position pos t, w')
  | (Raise e, w') => (at_position (Died e) t, w')
  end.

(** A thread runs for at most five steps. *)
Definition steps_left (pos : position) : nat :=
  match pos with
  | Spawned => 5
  | Geocoding => 4
  | LoadingTheme _ => 3
  | Downloading _ => 2
  | Rendering _ _ => 1
  | Returned _ | Died _ => 0
  end.

Fixpoint worker_steps (n : nat) (P : poster_module) (t : worker) (w : world) : worker * world :=
  match n with
  | O => (t, w)
  | S n' => let '(t', w') := worker_step P t w in worker_steps n' P t' w'
  end.

(** What the thread function returned or raised, for a thread that is over. *)
Definition exit_of (pos : position) : outcome exn unit :=
  match pos with
  | Died e => Raise e
  | _ => Ret tt
  end.

(** ** The HTTP handlers (lines 110-176) *)

Record response : Type := Response { body : json; status_code : Z }.

(** [jsonify({'error': msg}), code] *)
Definition jsonify_error (msg : string) (code : Z) : response :=
  Response (JDict [("error", JStr msg)]) code.

(** [jsonify({'job_id': job_id})] *)
Definition jsonify_job_id (job_id : string) : response :=
  Response (JDict [("job_id", JStr job_id)]) 200.

Definition json_of_option (o : option string) : json :=
  match o with
  | Some s => JStr s
  | None => JNull
  end.

(** [jsonify(job)] for a job record. *)
Definition jsonify_job (j : job) : response :=
  let p := job_params_of j in
  Response
    (JDict [("status", JStr (job_status j));
            ("progress", JInt (job_progress j));
            ("result", json_of_option (job_result j));
            ("error", json_of_option (job_error j));
            ("params", JDict [("city", JStr (p_city p));
                              ("country", JStr (p_country p));
                              ("theme", JStr (p_theme p));
                              ("distance", JInt (p_distance p));
                              ("display_name", json_of_option (p_display_name p))])])
    200.

(** An exception of the collaborator that leaves a request handler. *)
Definition unhandled {A} (r : outcome exn A) : outcome exn_class A :=
  match r with
  | Ret a => Ret a
  | Raise e => Raise (exn_cls e)
  end.

(** [theme_name in available_themes], for a list of theme names: the name
    when it is found. A value that is not a string equals no theme name. *)
Definition theme_in (theme_name : json) (available_themes : list string) : option string :=
  match theme_name with
  | JStr s => if bool_decide (s ∈ available_themes) then Some s else None
  | _ => None
  end.

(** [s or None] *)
Definition or_None (s : string) : option string :=
  match s with
  | EmptyString => None
  | _ => Some s
  end.

(** The record stored at lines 142-154. *)
Definition new_job (params : job_params) : job :=
  Job "pending" 0 None None params.

(** Lines 141-154, under the lock. *)
Definition create_job (job_id : string) (params : job_params) (w : world) : world :=
  World (<[job_id := new_job params]> (jobs w)) (THEME w) (threads w).

(** Lines 157-162: [threading.Thread(target=run_generation, args=...).start()] *)
Definition start_thread (job_id : string) (params : job_params) (w : world) : world :=
  World (jobs w) (THEME w)
        (threads w ++
           [Worker job_id (p_city params) (p_country params) (p_theme params)
                   (p_distance params) (p_display_name params) Spawned]).

(** [get_status(job_id)], lines 167-176: the lookup and the copy made under
    the lock, then [jsonify]. *)
Definition get_status (job_id : string) (jobs : gmap string job) : response :=
  match jobs !! job_id with
  | None => jsonify_error "Job not found" 404
  | Some j => jsonify_job j
  end.

(** ** Sample inputs *)

(** A collaborator whose calls all return; the output path is
    ["posters/<city>_<theme>.png"]. *)
Definition poster_ok : poster_module :=
  PosterModule
    (Ret ["noir"])
    (fun _ _ => Ret (JList [JInt 48; JInt 2]))
    (fun _ => Ret (JDict []))
    (fun filename_city theme_name =>
       Ret ("posters/" +:+ filename_city +:+ "_" +:+ theme_name +:+ ".png"))
    (fun _ _ _ _ _ _ => Ret tt).



(** The body [{"city": "Paris", "country": "France", "theme": "noir"}]. *)
Definition paris_request : list (string * json) :=
  [("city", JStr "Paris"); ("country", JStr "France"); ("theme", JStr "noir")].

Definition paris : job_params := JobParams "Paris" "France" "noir" 10000 None.

(** A state with one pending job, ["job-1"]. *)
Definition one_job : world := World {["job-1" := new_job paris]} None [].

(** A stand-in for the interpreter in the examples, none of which formats a
    float or a container or converts a string that is not ASCII; the limit
    on digits is the default of Python 3.11 and later. *)
Definition cpython : interpreter :=
  Interpreter (fun _ => "") (fun _ => "?") 4300.

Section Handlers.

(** The interpreter that runs the application is a parameter. *)
Variable python : interpreter.

(** [f"{v}"] *)
Definition format_value (v : json) : string :=
  match v with
  | JStr s => s
  | JNull => "None"
  | JBool true => "True"
  | JBool false => "False"
  | JInt z => pretty z
  | _ => py_repr python v
  end.

(** Lines 113-137 of [generate]: either a response that ends the request, or
    the validated parameters. *)
Definition generate_validate (P : poster_module) (data : json)
    : outcome exn_class (response + job_params) :=
  city ← py_get data "city" (JStr "") ≫= py_strip;
  country ← py_get data "country" (JStr "") ≫= py_strip;
  if bool_decide (city = "") || bool_decide (country = "")
  then mret (inl (jsonify_error "City and country are required" 400))
  else
    theme_name ← py_get data "theme" (JStr "feature_based");
    distance ← py_get data "distance" (JInt 10000);
    display_name ← or_None <$> (py_get data "display_name" (JStr "") ≫= py_strip);
    available_themes ← unhandled (get_available_themes P);
    match theme_in theme_name available_themes with
    | None =>
        mret (inl (jsonify_error
                     ("Theme '" +:+ format_value theme_name +:+ "' not found") 400))
    | Some theme_name =>
        match py_int python distance with
        | Ret distance =>
            if (distance <? 1000) || (distance >? 50000)
            then mret (inl (jsonify_error
                              "Distance must be between 1000 and 50000 meters" 400))
            else mret (inr (JobParams city country theme_name distance display_name))
        | Raise ValueError => mret (inl (jsonify_error "Invalid distance value" 400))
        | Raise c => Raise c
        end
    end.

(** [generate()], lines 110-164. [uuid4] is the value that
    [str(uuid.uuid4())] yields at this call, and [thread_start] what
    [thread.start()] does at line 162: it returns, or it raises
    ([RuntimeError: can't start new thread], when the system has no thread
    left to give). The record is in the table by then, and stays. *)
Definition generate (P : poster_module) (uuid4 : string)
    (thread_start : outcome exn unit) (data : json) (w : world)
    : outcome exn_class response * world :=
  match generate_validate P data with
  | Raise c => (Raise c, w)
  | Ret (inl resp) => (Ret resp, w)
  | Ret (inr params) =>
      let job_id := uuid4 in
      let w := create_job job_id params w in
      match thread_start with
      | Ret _ =>
          let w := start_thread job_id params w in
          (Ret (jsonify_job_id job_id), w)
      | Raise e => (Raise (exn_cls e), w)
      end
  end.

(** ** The running application

    What happens next is chosen by a scheduler: a request arrives and its
    handler runs, or a worker thread runs up to its next update. The label of
    a step carries what the environment decides there: the behaviour of the
    collaborator, the identifier drawn by [uuid.uuid4()], and whether the
    worker thread could be started. *)

Inductive label : Type :=
  | Submit (P : poster_module) (uuid4 : string) (thread_start : outcome exn unit)
           (data : json)                                       (* POST /api/generate *)
  | Poll (job_id : string)                                     (* GET /api/status/<job_id> *)
  | Run (i : nat) (P : poster_module).                         (* thread [i] is scheduled *)

Definition run_thread (i : nat) (P : poster_module) (w : world) : world :=
  match threads w !! i with
  | Some t =>
      let '(t', w') := worker_step P t w in
      World (jobs w') (THEME w') (<[i := t']> (threads w'))
  | None => w
  end.

(** One step: the response sent, if the step is a request, and the new state. *)
Definition step (l : label) (w : world) : option (outcome exn_class response) * world :=
  match l with
  | Submit P uuid4 thread_start data =>
      let '(r, w') := generate P uuid4 thread_start data w in (Some r, w')
  | Poll job_id => (Some (Ret (get_status job_id (jobs w))), w)
  | Run i P => (None, run_thread i P w)
  end.

(** A whole run: the responses sent, oldest first, and the final state. *)
Fixpoint exec (ls : list label) (w : world)
    : list (outcome exn_class response) * world :=
  match ls with
  | [] => ([], w)
  | l :: ls' =>
      let '(r, w') := step l w in
      let '(rs, w'') := exec ls' w' in
      ((option_list r ++ rs)%list, w'')
  end.

(** The application at start-up: [jobs = {}], no theme loaded, no thread. *)
Definition initial_world : world := World ∅ None [].

(** The identifier a step draws from [uuid.uuid4()]: line 140 is reached by
    a submission that passes validation, and by nothing else. *)
Definition draws (l : label) : option string :=
  match l with
  | Submit P uuid4 _ data =>
      match generate_validate P data with
      | Ret (inr _) => Some uuid4
      | _ => None
      end
  | _ => None
  end.

(** The identifiers drawn by [uuid.uuid4()] along a run. *)
Definition uuids (ls : list label) : list string := omap draws ls.

(** The job id a response hands to the client, if it does. *)
Definition issued_id (r : outcome exn_class response) : option string :=
  match r with
  | Ret (Response (JDict [(key, JStr job_id)]) _) =>
      if String.eqb key "job_id" then Some job_id else None
  | _ => None
  end.

Definition issued_ids (rs : list (outcome exn_class response)) : list string :=
  omap issued_id rs.

(** The state and the responses after the run [ls] from start-up. *)
Definition world_after (ls : list label) : world := (exec ls initial_world).2.
Definition responses (ls : list label) : list (outcome exn_class response) :=
  (exec ls initial_world).1.

(** The condition under which a step may be taken: an identifier drawn by
    [uuid.uuid4()] is not the id of a job already in the table. *)
Definition draws_fresh (l : label) (w : world) : Prop :=
  ∀ uuid4, draws l = Some uuid4 → jobs w !! uuid4 = None.

(** ** The life cycle of a job, as the specification words it *)

(** The status that follows [status] in the sequence pending, geocoding,
    loading_theme, downloading, rendering, complete, with the progress set on
    entering it. *)
Definition successor (status : string) : option (string * Z) :=
  if String.eqb status "pending" then Some ("geocoding", 10)
  else if String.eqb status "geocoding" then Some ("loading_theme", 20)
  else if String.eqb status "loading_theme" then Some ("downloading", 30)
  else if String.eqb status "downloading" then Some ("rendering", 50)
  else if String.eqb status "rendering" then Some ("complete", 100)
  else None.

(** The place of a status in the sequence; ["error"] comes last. *)
Definition rank (status : string) : nat :=
  if String.eqb status "pending" then 0
  else if String.eqb status "geocoding" then 1
  else if String.eqb status "loading_theme" then 2
  else if String.eqb status "downloading" then 3
  else if String.eqb status "rendering" then 4
  else if String.eqb status "complete" then 5
  else 6.

(** A status that has a successor: the job is not finished. *)
Definition unfinished (status : string) : bool :=
  bool_decide (is_Some (successor status)).

(** The transitions allowed to a job record: one step along the sequence with
    the progress of the status entered, or a jump from an unfinished status
    to ["error"]. *)
Definition permitted (j j' : job) : Prop :=
  successor (job_status j) = Some (job_status j', job_progress j') ∨
  (unfinished (job_status j) = true ∧ job_status j' = "error").

(** What the worker does to the record of its job in one step: the update
    that opens the next phase, or the update of the handler. *)
Definition advances (j j' : job) : Prop :=
  successor (job_status j) = Some (job_status j', job_progress j').

Definition fails (j j' : job) : Prop :=
  unfinished (job_status j) = true ∧
  ∃ error_msg, j' = apply_update "error" None None (Some error_msg) j.

Definition shows (status : string) (progress : Z) (result error : option string)
    (j : job) : Prop :=
  job_status j = status ∧ job_progress j = progress ∧
  job_result j = result ∧ job_error j = error.

(** The statuses a job has while its worker is between the first and the last
    update, with their progress. *)
Definition in_progress (j : job) : Prop :=
  (job_status j, job_progress j) ∈
    [("geocoding", 10); ("loading_theme", 20); ("downloading", 30); ("rendering", 50)].

(** What the record of a job shows when its worker is at [pos]. *)
Definition job_at (pos : position) (j : job) : Prop :=
  match pos with
  | Spawned => shows "pending" 0 None None j
  | Geocoding => shows "geocoding" 10 None None j
  | LoadingTheme _ => shows "loading_theme" 20 None None j
  | Downloading _ => shows "downloading" 30 None None j
  | Rendering _ _ => shows "rendering" 50 None None j
  | Returned (Completed output_file) =>
      shows "complete" 100 (Some (basename output_file)) None j
  | Returned (Caught e) =>
      job_status j = "error" ∧ job_progress j ∈ [10; 20; 30; 50] ∧
      job_result j = None ∧ job_error j = Some (exn_str e)
  | Died _ =>
      in_progress j ∧ job_result j = None ∧ job_error j = None
  end.

(** The parameters stored with a job are the arguments of its thread. *)
Definition params_of (t : worker) : job_params :=
  JobParams (w_city t) (w_country t) (w_theme_name t) (w_distance t) (w_display_name t).

(** The state of the application is consistent: every thread works on a job
    of its own, whose record shows where the thread stands, and a job that
    has no thread (its thread could not be started) is as it was created. *)
Record consistent (w : world) : Prop := Consistent {
  threads_distinct : NoDup (w_job_id <$> threads w);
  threads_tracked : ∀ i t, threads w !! i = Some t →
    ∃ j, jobs w !! w_job_id t = Some j ∧ job_at (w_at t) j ∧
         job_params_of j = params_of t;
  jobs_owned : ∀ job_id j, jobs w !! job_id = Some j →
    job_id ∈ w_job_id <$> threads w ∨ j = new_job (job_params_of j)
}.

(** ** The lock: the blocks under [jobs_lock], statement by statement

    The functions above take each [with jobs_lock:] block as one step. This
    machine does not: a call is a thread that acquires the lock, runs the
    statements of its block one at a time, and releases the lock, and
    threads interleave at every statement. *)

(** Where a call of [update_job_status] stands (lines 31-39). *)
Inductive update_pc : Type :=
  | U_enter               (* at [with jobs_lock:], line 31 *)
  | U_test                (* lock held, at [if job_id in jobs:], line 32 *)
  | U_write (n : nat)     (* lock held, [n] of the four field writes done *)
  | U_exit                (* lock held, at the end of the block *)
  | U_done.

(** Where the insertion of [generate] stands (lines 141-154). *)
Inductive create_pc : Type :=
  | C_enter
  | C_write
  | C_exit
  | C_done.

(** Where a call of [get_status] stands (lines 170-176). *)
Inductive read_pc : Type :=
  | R_enter                                   (* at [with jobs_lock:], line 170 *)
  | R_test                                    (* lock held, line 171 *)
  | R_exit_404                                (* lock held, returning from line 172 *)
  | R_copy                                    (* lock held, line 174 *)
  | R_raise                                   (* lock held, [KeyError] at line 174 *)
  | R_exit (job : job)                        (* lock held, [job] is the copy *)
  | R_jsonify (job : job)                     (* lock released, line 176 *)
  | R_done (r : outcome exn_class response).

Inductive call_state : Type :=
  | Updating (job_id status : string) (progress : option Z)
             (result error : option string) (pc : update_pc)
  | Creating (job_id : string) (params : job_params) (pc : create_pc)
  | Reading (job_id : string) (pc : read_pc).

Record machine : Type := Machine {
  table : gmap string job;       (* the [jobs] dictionary *)
  jobs_lock : option nat;        (* the thread that holds the lock, if any *)
  pool : list call_state
}.

(** The [n]-th field write of [update_job_status] (lines 33, 35, 37, 39). *)
Definition write_field (n : nat) (status : string) (progress : option Z)
    (result error : option string) (j : job) : job :=
  match n with
  | 0%nat => set_status status j
  | 1%nat => set_if_given set_progress progress j
  | 2%nat => set_if_given set_result result j
  | _ => set_if_given set_error error j
  end.

Definition moved (k : nat) (c : call_state) (s : machine) : machine :=
  Machine (table s) (jobs_lock s) (<[k := c]> (pool s)).

(** [with jobs_lock:] entered by thread [k]: it goes on as [c] when the lock
    is free, and waits otherwise. *)
Definition acquire (k : nat) (c : call_state) (s : machine) : machine :=
  match jobs_lock s with
  | None => Machine (table s) (Some k) (<[k := c]> (pool s))
  | Some _ => s
  end.

(** The end of the [with] block. *)
Definition release (k : nat) (c : call_state) (s : machine) : machine :=
  Machine (table s) None (<[k := c]> (pool s)).

(** One statement of thread [k]. A field write addresses a key that was
    tested under the same lock, so the [KeyError] of [jobs[job_id]] on a
    missing key is not given a branch there. *)
Definition thread_step (k : nat) (s : machine) : machine :=
  match pool s !! k with
  | None => s
  | Some (Updating job_id status progress result error pc) =>
      let at_pc := Updating job_id status progress result error in
      match pc with
      | U_enter => acquire k (at_pc U_test) s
      | U_test =>
          if decide (is_Some (table s !! job_id))
          then moved k (at_pc (U_write 0)) s
          else moved k (at_pc U_exit) s
      | U_write n =>
          Machine (alter (write_field n status progress result error) job_id (table s))
                  (jobs_lock s)
                  (<[k := at_pc (if decide (n < 3)%nat then U_write (S n) else U_exit)]>
                     (pool s))
      | U_exit => release k (at_pc U_done) s
      | U_done => s
      end
  | Some (Creating job_id params pc) =>
      match pc with
      | C_enter => acquire k (Creating job_id params C_write) s
      | C_write =>
          Machine (<[job_id := new_job params]> (table s)) (jobs_lock s)
                  (<[k := Creating job_id params C_exit]> (pool s))
      | C_exit => release k (Creating job_id params C_done) s
      | C_done => s
      end
  | Some (Reading job_id pc) =>
      match pc with
      | R_enter => acquire k (Reading job_id R_test) s
      | R_test =>
          if decide (is_Some (table s !! job_id))
          then moved k (Reading job_id R_copy) s
          else moved k (Reading job_id R_exit_404) s
      | R_exit_404 =>
          release k (Reading job_id (R_done (Ret (jsonify_error "Job not found" 404)))) s
      | R_copy =>
          match table s !! job_id with
          | Some j => moved k (Reading job_id (R_exit j)) s
          | None => moved k (Reading job_id R_raise) s
          end
      | R_raise => release k (Reading job_id (R_done (Raise OtherException))) s
      | R_exit j => release k (Reading job_id (R_jsonify j)) s
      | R_jsonify j => moved k (Reading job_id (R_done (Ret (jsonify_job j)))) s
      | R_done _ => s
      end
  end.

(** A schedule names the thread that runs next, statement after statement. *)
Definition run_schedule (schedule : list nat) (s : machine) : machine :=
  foldl (fun s k => thread_step k s) s schedule.

(** A thread that is not inside a [with jobs_lock:] block. *)
Definition outside (c : call_state) : bool :=
  match c with
  | Updating _ _ _ _ _ (U_enter | U_done) => true
  | Creating _ _ (C_enter | C_done) => true
  | Reading _ (R_enter | R_jsonify _ | R_done _) => true
  | _ => false
  end.

(** A call that has not begun. *)
Definition unstarted (c : call_state) : bool :=
  match c with
  | Updating _ _ _ _ _ U_enter => true
  | Creating _ _ C_enter => true
  | Reading _ R_enter => true
  | _ => false
  end.

(** A call as it was before it began. *)
Definition restart (c : call_state) : call_state :=
  match c with
  | Updating job_id status progress result error _ =>
      Updating job_id status progress result error U_enter
  | Creating job_id params _ => Creating job_id params C_enter
  | Reading job_id _ => Reading job_id R_enter
  end.

(** A thread that has run its block to the end and released the lock. *)
Definition left_block (c : call_state) : bool :=
  match c with
  | Updating _ _ _ _ _ U_done => true
  | Creating _ _ C_done => true
  | Reading _ (R_jsonify _ | R_done _) => true
  | _ => false
  end.

(** The table after the whole block of a call, run as one step: an update as
    [update_job_status] computes it, the insertion of a new job, or nothing
    for a query. *)
Definition block_effect (c : call_state) (T : gmap string job) : gmap string job :=
  match c with
  | Updating job_id status progress result error _ =>
      update_job_status job_id status progress result error T
  | Creating job_id params _ => <[job_id := new_job params]> T
  | Reading _ _ => T
  end.

(** The table after the blocks of the threads [order], one whole block after
    the other. *)
Definition replay (calls : list call_state) (order : list nat)
    (T0 : gmap string job) : gmap string job :=
  foldl (fun T k => from_option (fun c => block_effect c T) T (calls !! k)) T0 order.

(** [T] is the table that whole blocks produce: the blocks of some threads
    of the pool that have left their block, each run once, in some order. *)
Definition committed (s0 : machine) (running : list call_state)
    (T : gmap string job) : Prop :=
  ∃ order,
    NoDup order ∧
    (∀ k, k ∈ order → ∃ c, running !! k = Some c ∧ left_block c = true) ∧
    T = replay (pool s0) order (table s0).

(** The first [n] field writes of an update. *)
Fixpoint writes_done (n : nat) (status : string) (progress : option Z)
    (result error : option string) (j : job) : job :=
  match n with
  | O => j
  | S m =>
      write_field m status progress result error
        (writes_done m status progress result error j)
  end.

(** What the table shows to the thread that holds the lock, when [A] is the
    table as the last whole block left it. *)
Definition holder_view (A tbl : gmap string job) (c : call_state) : Prop :=
  match c with
  | Updating _ _ _ _ _ U_test => tbl = A
  | Updating job_id status progress result error (U_write n) =>
      (n <= 3)%nat ∧
      ∃ j, A !! job_id = Some j ∧
           tbl = <[job_id := writes_done n status progress result error j]> A
  | Updating job_id status progress result error U_exit =>
      tbl = update_job_status job_id status progress result error A
  | Creating _ _ C_write => tbl = A
  | Creating job_id params C_exit => tbl = <[job_id := new_job params]> A
  | Reading _ R_test => tbl = A
  | Reading job_id R_exit_404 => tbl = A ∧ A !! job_id = None
  | Reading job_id R_copy => tbl = A ∧ is_Some (A !! job_id)
  | Reading job_id (R_exit j) => tbl = A ∧ A !! job_id = Some j
  | _ => False
  end.

(** What a query that has left its block carries: a record, or a response,
    taken from a table that whole blocks produced. *)
Definition reader_view (s0 : machine) (running : list call_state)
    (c : call_state) : Prop :=
  match c with
  | Reading job_id (R_jsonify j) =>
      ∃ T, committed s0 running T ∧ T !! job_id = Some j
  | Reading job_id (R_done r) =>
      ∃ T, committed s0 running T ∧ r = Ret (get_status job_id T)
  | _ => True
  end.

(** The invariant of the machine started in [s0]: the calls are those of
    [s0]; the threads outside their block carry committed data; and the
    table is a committed one, up to the writes that the holder of the lock
    has made so far. *)
Definition lock_inv (s0 s : machine) : Prop :=
  (∀ k c, pool s !! k = Some c → pool s0 !! k = Some (restart c)) ∧
  (∀ k c, pool s !! k = Some c → reader_view s0 (pool s) c) ∧
  ∃ A, committed s0 (pool s) A ∧
    match jobs_lock s with
    | None => table s = A ∧ ∀ k c, pool s !! k = Some c → outside c = true
    | Some h =>
        (∃ c, pool s !! h = Some c ∧ holder_view A (table s) c) ∧
        ∀ k c, k ≠ h → pool s !! k = Some c → outside c = true
    end.

(** An update of ["job-1"] and a status query for it, both about to start. *)
Definition update_and_query : machine :=
  Machine {["job-1" := new_job paris]} None
          [Updating "job-1" "geocoding" (Some 10) None None U_enter;
           Reading "job-1" R_enter].

(** The update takes the lock and writes the status; the query tries to
    enter and waits; the update finishes; the query runs. *)
Definition query_during_update : list nat :=
  [0; 0; 0; 1; 0; 0; 0; 0; 1; 1; 1; 1; 1]%nat.


(** ** The theme listing (lines 84-107) *)

Definition starts_with_slash (p : string) : bool :=
  match p with
  | String c _ => is_slash c
  | EmptyString => false
  end.

Fixpoint ends_with_slash (p : string) : bool :=
  match p with
  | EmptyString => false
  | String c EmptyString => is_slash c
  | String _ p' => ends_with_slash p'
  end.

(** [os.path.join(a, b)] on POSIX. *)
Definition path_join (a b : string) : string :=
  if starts_with_slash b then b
  else if bool_decide (a = "") || ends_with_slash a then a +:+ b
  else a +:+ "/" +:+ b.

(** The dictionary appended at lines 95-103; [theme_data] is a [dict]. *)
Definition theme_entry (theme_name : string) (theme_data : list (string * json)) : json :=
  JDict [("id", JStr theme_name);
         ("name", default (JStr theme_name) (assoc_get "name" theme_data));
         ("description", default (JStr "") (assoc_get "description" theme_data));
         ("bg", default (JStr "#FFFFFF") (assoc_get "bg" theme_data));
         ("text", default (JStr "#000000") (assoc_get "text" theme_data));
         ("road_primary", default (JStr "#333333") (assoc_get "road_primary" theme_data));
         ("road_secondary",
          default (JStr "#666666") (assoc_get "road_secondary" theme_data))].

(** The loop of lines 90-105. [THEMES_DIR] is [poster.THEMES_DIR], and
    [json_load path] is what [open(path, 'r')] followed by [json.load] gives
    at that moment. A file that holds JSON other than an object makes
    [theme_data.get] raise [AttributeError]; that and every other
    [Exception] is caught, reported on the standard output (not modelled)
    and the theme is skipped. *)
Fixpoint get_themes_loop (THEMES_DIR : string) (json_load : string -> outcome exn json)
    (theme_names : list string) (themes : list json) : outcome exn (list json) :=
  match theme_names with
  | [] => Ret themes
  | theme_name :: rest =>
      let theme_path := path_join THEMES_DIR (theme_name +:+ ".json") in
      match json_load theme_path with
      | Ret (JDict theme_data) =>
          get_themes_loop THEMES_DIR json_load rest
            (themes ++ [theme_entry theme_name theme_data])
      | Ret _ => get_themes_loop THEMES_DIR json_load rest themes
      | Raise e =>
          if is_Exception e
          then get_themes_loop THEMES_DIR json_load rest themes
          else Raise e
      end
  end.

(** [get_themes()], lines 84-107. *)
Definition get_themes (P : poster_module) (THEMES_DIR : string)
    (json_load : string -> outcome exn json) : outcome exn_class response :=
  theme_names ← unhandled (get_available_themes P);
  themes ← unhandled (get_themes_loop THEMES_DIR json_load theme_names []);
  mret (Response (JList themes) 200).



(** The [id] of an entry of the listing. *)
Definition entry_id (entry : json) : option json :=
  match entry with
  | JDict d => assoc_get "id" d
  | _ => None
  end.

(** ** Words for the further properties *)

(** The argument that counts after two updates in a row: the second when it
    is given, else the first. *)
Definition later_arg {A} (second first : option A) : option A :=
  match second with
  | Some _ => second
  | None => first
  end.

(** A string with no white space at either end. *)
Definition trimmed (s : string) : Prop := strip s = s.

(** What the checks of [generate] (lines 116-137) leave of a request: the
    parameters a job is created with. *)
Record checked (params : job_params) : Prop := Checked {
  city_given : p_city params ≠ "" ∧ trimmed (p_city params);
  country_given : p_country params ≠ "" ∧ trimmed (p_country params);
  distance_in_range : 1000 <= p_distance params <= 50000;
  display_name_given : ∀ s, p_display_name params = Some s → s ≠ "" ∧ trimmed s
}.

(** [w'] differs from [w] at most in the record of [job_id] and in the
    global theme: the same threads, the same job ids, the same record for
    every other job. *)
Definition touches_only (job_id : string) (w w' : world) : Prop :=
  threads w' = threads w ∧
  dom (jobs w') = dom (jobs w) ∧
  ∀ other, other ≠ job_id → jobs w' !! other = jobs w !! other.

(** A statement that keeps a relation between the state before and after. *)
Definition keeps {A} (R : world -> world -> Prop) (m : M A) : Prop :=
  ∀ w, R w (m w).2.

(** The seven statuses a job can have (the strings written at lines 49-75
    and 143). *)
Definition statuses : list string :=
  ["pending"; "geocoding"; "loading_theme"; "downloading"; "rendering"; "complete"; "error"].

(** ** Words for the properties of the lock *)

(** [T] is the table after the whole blocks of exactly the threads that have
    left their block, each run once, in some order. *)
Definition all_committed (s0 : machine) (running : list call_state)
    (T : gmap string job) : Prop :=
  ∃ order,
    NoDup order ∧
    (∀ k, k ∈ order ↔ ∃ c, running !! k = Some c ∧ left_block c = true) ∧
    T = replay (pool s0) order (table s0).

(** The invariant by which no block is lost: as [lock_inv], with the table
    accounting for every thread that has left its block. *)
Definition lossless (s0 s : machine) : Prop :=
  length (pool s) = length (pool s0) ∧
  (∀ k c, pool s !! k = Some c → pool s0 !! k = Some (restart c)) ∧
  ∃ A, all_committed s0 (pool s) A ∧
    match jobs_lock s with
    | None => table s = A ∧ ∀ k c, pool s !! k = Some c → outside c = true
    | Some h =>
        (∃ c, pool s !! h = Some c ∧ holder_view A (table s) c) ∧
        ∀ k c, k ≠ h → pool s !! k = Some c → outside c = true
    end.



(** The statements a call has still to run, at most. *)
Definition remaining (c : call_state) : nat :=
  match c with
  | Updating _ _ _ _ _ pc =>
      match pc with
      | U_enter => 7
      | U_test => 6
      | U_write n => 2 + (3 - n)
      | U_exit => 1
      | U_done => 0
      end
  | Creating _ _ pc =>
      match pc with
      | C_enter => 3
      | C_write => 2
      | C_exit => 1
      | C_done => 0
      end
  | Reading _ pc =>
      match pc with
      | R_enter => 5
      | R_test => 4
      | R_copy => 3
      | R_exit _ => 2
      | R_exit_404 | R_raise | R_jsonify _ => 1
      | R_done _ => 0
      end
  end.

(** The statements all the calls of the pool have still to run, at most. *)
Definition work (s : machine) : nat := sum_list (remaining <$> pool s).

(** A call that has returned. *)
Definition returned (c : call_state) : bool :=
  match c with
  | Updating _ _ _ _ _ U_done => true
  | Creating _ _ C_done => true
  | Reading _ (R_done _) => true
  | _ => false
  end.

(** [isinstance(v, str)] *)
Definition is_text (v : json) : bool :=
  match v with
  | JStr _ => true
  | _ => false
  end.

(** ** Sample inputs for the further properties *)

(** A collaborator that lists two themes. *)
Definition two_themes : poster_module :=
  PosterModule
    (Ret ["noir"; "broken"])
    (fun _ _ => Ret (JList [JInt 48; JInt 2]))
    (fun _ => Ret (JDict []))
    (fun filename_city theme_name =>
       Ret ("posters/" +:+ filename_city +:+ "_" +:+ theme_name +:+ ".png"))
    (fun _ _ _ _ _ _ => Ret tt).

Definition noir_file : list (string * json) :=
  [("name", JStr "Noir"); ("bg", JStr "#000000")].

(** A theme directory in which only ["themes/noir.json"] can be read. *)
Definition theme_files (theme_path : string) : outcome exn json :=
  if String.eqb theme_path "themes/noir.json" then Ret (JDict noir_file)
  else Raise (Exn OtherException "Expecting value: line 1 column 1 (char 0)").

(** The body [{"city": " Paris ", "country": "France"}]. *)
Definition bare_request : list (string * json) :=
  [("city", JStr " Paris "); ("country", JStr "France")].

(** U+00A0, the no-break space, and U+3000, the ideographic space, in
    UTF-8. *)
Definition no_break_space : string := String "194" (String "160" "").
Definition ideographic_space : string := String "227" (String "128" (String "128" "")).

(** A body whose city is blank, with white space outside the ASCII range. *)
Definition blank_city_request : list (string * json) :=
  [("city", JStr (no_break_space +:+ ideographic_space)); ("country", JStr "France")].

(** [thread.start()] when the system has no thread left to give. *)
Definition start_fails : outcome exn unit :=
  Raise (Exn OtherException "can't start new thread").

(** A submission of [paris_request] that draws ["job-1"], and its worker run
    to the end. *)
Definition paris_run : list label :=
  [Submit poster_ok "job-1" (Ret tt) (JDict paris_request);
   Run 0 poster_ok; Run 0 poster_ok; Run 0 poster_ok; Run 0 poster_ok; Run 0 poster_ok].

(** * Properties *)

(** ** Strings *)

Lemma names_file_no_slash (p : string) :
  names_file p = true -> has_slash p = false -> p ≠ EmptyString ∧ basename p = p.
Proof.
  destruct p as [|c p]; [discriminate|].
  intros _ Hs. split; [discriminate|].
  simpl in *. apply orb_false_iff in Hs as [Hc Hp]. now rewrite Hp, Hc.
Qed.

(** The base name of a path that names a file is not empty. *)
Lemma basename_names_file (p : string) :
  names_file p = true -> basename p ≠ EmptyString.
Proof.
  induction p as [|c p IH]; [discriminate|].
  intros Hp. cbn [basename].
  destruct (has_slash p) eqn:Hs.
  - apply IH. destruct p; [discriminate | exact Hp].
  - destruct (is_slash c) eqn:Hc.
    + destruct p as [|c' p]; [simpl in Hp; now rewrite Hc in Hp|].
      intros Hempty. discriminate.
    + discriminate.
Qed.

(** ** The job table *)

Lemma update_job_status_present (jobs : gmap string job) job_id j status progress result error :
  jobs !! job_id = Some j ->
  update_job_status job_id status progress result error jobs
  = <[job_id := apply_update status progress result error j]> jobs.
Proof. intros H. unfold update_job_status. now rewrite H. Qed.

Lemma update_job_status_other (jobs : gmap string job) job_id other status progress result error :
  other ≠ job_id ->
  update_job_status job_id status progress result error jobs !! other = jobs !! other.
Proof.
  intros Hne. unfold update_job_status.
  destruct (jobs !! job_id); [|reflexivity].
  now rewrite lookup_insert_ne.
Qed.

Lemma apply_update_params status progress result error j :
  job_params_of (apply_update status progress result error j) = job_params_of j.
Proof. now destruct progress, result, error. Qed.

Lemma apply_update_status status progress result error j :
  job_status (apply_update status progress result error j) = status.
Proof. now destruct progress, result, error. Qed.

Lemma apply_update_progress status progress result error j :
  job_progress (apply_update status progress result error j)
  = default (job_progress j) progress.
Proof. now destruct progress, result, error. Qed.

Lemma apply_update_result status progress result error j :
  job_result (apply_update status progress result error j)
  = from_option Some (job_result j) result.
Proof. now destruct progress, result, error. Qed.

Lemma apply_update_error status progress result error j :
  job_error (apply_update status progress result error j)
  = from_option Some (job_error j) error.
Proof. now destruct progress, result, error. Qed.

(** ** One step of a worker *)

Lemma successor_unfinished status next :
  successor status = Some next -> unfinished status = true.
Proof. intros H. unfold unfinished. rewrite H. now apply bool_decide_eq_true. Qed.

Lemma in_progress_unfinished j : in_progress j -> unfinished (job_status j) = true.
Proof.
  unfold in_progress. rewrite !elem_of_cons, elem_of_nil.
  intros [H|[H|[H|[H|[]]]]]; injection H as -> _; reflexivity.
Qed.

(** Moving by a permitted transition is moving forward in the sequence. *)
Lemma permitted_rank j j' :
  permitted j j' -> (rank (job_status j) < rank (job_status j'))%nat.
Proof.
  intros [Hnext | [Hlive ->]].
  - unfold successor in Hnext. unfold rank at 1.
    repeat (destruct (String.eqb (job_status j) _);
            [injection Hnext as <- _; cbn; lia|]).
    discriminate.
  - unfold unfinished in Hlive. apply bool_decide_eq_true in Hlive as [next Hnext].
    unfold successor in Hnext. unfold rank at 1.
    repeat (destruct (String.eqb (job_status j) _); [cbn; lia|]).
    discriminate.
Qed.

Lemma advances_permitted j j' : advances j j' -> permitted j j'.
Proof. now left. Qed.

Lemma fails_permitted j j' : fails j j' -> permitted j j'.
Proof. intros [Hlive [msg ->]]. right. split; [exact Hlive | reflexivity]. Qed.

(** A finished job admits no transition. *)
Lemma permitted_unfinished j j' : permitted j j' -> unfinished (job_status j) = true.
Proof. intros [H | [H _]]; [now apply successor_unfinished in H | exact H]. Qed.

Ltac settle_member :=
  repeat (first [apply list_elem_of_here | apply list_elem_of_further]).

(** Closes one case of a scheduling step: [Hstep] is the computed step,
    [Hj] the record before it and [Hat] what the record showed. *)
Ltac settle_step Hstep Hj Hat :=
  injection Hstep as <- <-; cbn;
  try rewrite (update_job_status_present _ _ _ _ _ _ _ Hj);
  eexists; split; [first [reflexivity | eassumption]|];
  unfold shows, in_progress, advances, fails in *; cbn;
  repeat match goal with H : _ ∧ _ |- _ => destruct H end;
  repeat match goal with H : job_status _ = _ |- _ => rewrite H end;
  repeat match goal with H : job_progress _ = _ |- _ => rewrite H end;
  repeat match goal with H : job_result _ = _ |- _ => rewrite H end;
  repeat match goal with H : job_error _ = _ |- _ => rewrite H end;
  repeat split;
  try solve [settle_member | assumption | now left
            | right; left; reflexivity
            | right; right; split; [reflexivity | eexists; reflexivity]].

(** What one scheduling step of a thread does to the state: the record of its
    own job moves by at most one permitted transition and again shows where
    the thread stands; nothing else changes but [poster.THEME]. *)
Lemma worker_step_spec (P : poster_module) (t : worker) (w : world) (j : job) :
  jobs w !! w_job_id t = Some j ->
  job_at (w_at t) j ->
  ∃ j',
    jobs (worker_step P t w).2 = <[w_job_id t := j']> (jobs w) ∧
    threads (worker_step P t w).2 = threads w ∧
    params_of (worker_step P t w).1 = params_of t ∧
    w_job_id (worker_step P t w).1 = w_job_id t ∧
    job_at (w_at (worker_step P t w).1) j' ∧
    job_params_of j' = job_params_of j ∧
    (j' = j ∨ advances j j' ∨ fails j j').
Proof.
  intros Hj Hat.
  assert (Hsame : jobs w = <[w_job_id t := j]> (jobs w)) by now rewrite insert_id.
  destruct (worker_step P t w) as [t' w'] eqn:Hstep.
  unfold worker_step, try_except_Exception, resume, run_generation_except in Hstep.
  unfold update, call, assign_THEME, mbind, M_bind, mret, M_ret in Hstep.
  destruct (w_at t) as [| |coords|coords|coords output_file|how|e] eqn:Hpos;
    cbn in Hstep, Hat.
  - settle_step Hstep Hj Hat.
  - destruct (get_coordinates P _ _) as [coords|e]; [|destruct (is_Exception e)];
      settle_step Hstep Hj Hat.
  - destruct (load_theme P _) as [theme|e]; [|destruct (is_Exception e)];
      settle_step Hstep Hj Hat.
  - destruct (generate_output_filename P _ _) as [output_file|e];
      [|destruct (is_Exception e)]; settle_step Hstep Hj Hat.
  - destruct (create_poster P _ _ _ _ _ _) as [[]|e]; [|destruct (is_Exception e)];
      settle_step Hstep Hj Hat.
  - settle_step Hstep Hj Hat.
  - settle_step Hstep Hj Hat.
Qed.

(** ** Steps of the application *)

Lemma exec_app (ls ls' : list label) (w : world) :
  exec (ls ++ ls') w =
  ((exec ls w).1 ++ (exec ls' (exec ls w).2).1, (exec ls' (exec ls w).2).2)%list.
Proof.
  revert w. induction ls as [|l ls IH]; intros w; cbn.
  - now destruct (exec ls' w).
  - destruct (step l w) as [r w1]. rewrite IH.
    destruct (exec ls w1) as [rs w2]; cbn.
    destruct (exec ls' w2) as [rs' w3]; cbn.
    now rewrite app_assoc.
Qed.

Lemma world_after_snoc (ls : list label) (l : label) :
  world_after (ls ++ [l]) = (step l (world_after ls)).2.
Proof.
  unfold world_after. rewrite exec_app; cbn.
  destruct (step l (exec ls initial_world).2) as [r w']; reflexivity.
Qed.

Lemma responses_snoc (ls : list label) (l : label) :
  responses (ls ++ [l]) = (responses ls ++ option_list (step l (world_after ls)).1)%list.
Proof.
  unfold responses, world_after. rewrite exec_app; cbn.
  destruct (step l (exec ls initial_world).2) as [r w']; cbn.
  now rewrite app_nil_r.
Qed.

Lemma uuids_app (ls ls' : list label) : uuids (ls ++ ls') = (uuids ls ++ uuids ls')%list.
Proof. apply omap_app. Qed.

(** A submission leaves the state alone, or adds one job and its thread, or
    adds one job and raises because the thread could not be started. *)
Lemma generate_world (P : poster_module) (uuid4 : string)
    (thread_start : outcome exn unit) (data : json) (w : world) :
  (generate P uuid4 thread_start data w).2 = w ∨
  ∃ params, generate_validate P data = Ret (inr params) ∧
    (generate P uuid4 thread_start data w
     = (Ret (jsonify_job_id uuid4), start_thread uuid4 params (create_job uuid4 params w))
     ∨ ∃ e, thread_start = Raise e ∧
         generate P uuid4 thread_start data w
         = (Raise (exn_cls e), create_job uuid4 params w)).
Proof.
  unfold generate.
  destruct (generate_validate P data) as [[resp|params]|c]; [now left | | now left].
  right. exists params. split; [reflexivity|].
  destruct thread_start as [[]|e]; [now left | right; eauto].
Qed.

Lemma generate_jobs (P : poster_module) (uuid4 : string)
    (thread_start : outcome exn unit) (data : json) (w : world) (params : job_params) :
  generate_validate P data = Ret (inr params) ->
  jobs (generate P uuid4 thread_start data w).2 = <[uuid4 := new_job params]> (jobs w).
Proof. intros H. unfold generate. rewrite H. now destruct thread_start. Qed.

Lemma step_Submit_world (P : poster_module) (u : string)
    (started : outcome exn unit) (data : json) (w : world) :
  (step (Submit P u started data) w).2 = (generate P u started data w).2.
Proof. cbn. now destruct (generate P u started data w). Qed.


(** Every step moves every job record by at most one permitted transition. *)
Lemma step_job (l : label) (w : world) (job_id : string) (j : job) :
  consistent w -> draws_fresh l w ->
  jobs w !! job_id = Some j ->
  ∃ j', jobs (step l w).2 !! job_id = Some j' ∧
        job_params_of j' = job_params_of j ∧
        (j' = j ∨ advances j j' ∨ fails j j').
Proof.
  intros Hw Hfresh Hj. destruct l as [P u started data|q|i P]; cbn.
  - destruct (generate_world P u started data w) as [Hsame | (params & Hvalid & Hgen)].
    + destruct (generate P u started data w) as [r w']; cbn in *; subst w'. eauto.
    + assert (Hu : jobs w !! u = None) by (apply Hfresh; cbn; now rewrite Hvalid).
      destruct Hgen as [Hgen | (e & _ & Hgen)]; rewrite Hgen; cbn;
        rewrite lookup_insert_ne by congruence; eauto.
  - eauto.
  - unfold run_thread. destruct (threads w !! i) as [t|] eqn:Ht; [|eauto].
    destruct (threads_tracked w Hw i t Ht) as (jt & Hjt & Hat & _).
    destruct (worker_step_spec P t w jt Hjt Hat) as (j' & Hjobs & _ & _ & _ & _ & Hpar & Hmove).
    destruct (worker_step P t w) as [t' w']; cbn in *. rewrite Hjobs.
    destruct (decide (w_job_id t = job_id)) as [<-|Hne].
    + rewrite lookup_insert_eq. assert (jt = j) as -> by congruence. eauto.
    + rewrite lookup_insert_ne by exact Hne. eauto.
Qed.

Lemma step_consistent (l : label) (w : world) :
  consistent w -> draws_fresh l w -> consistent (step l w).2.
Proof.
  intros Hw Hfresh. destruct l as [P u started data|q|i P]; cbn; [| exact Hw |].
  - destruct (generate_world P u started data w) as [Hsame | (params & Hvalid & Hgen)].
    + destruct (generate P u started data w) as [r w']; cbn in *; now subst w'.
    + assert (Hfree : jobs w !! u = None) by (apply Hfresh; cbn; now rewrite Hvalid).
      destruct Hw as [Hnd Htr Hown].
      assert (Hu : u ∉ w_job_id <$> threads w).
      { intros Hin. apply list_elem_of_fmap in Hin as (t & -> & Hin).
        apply list_elem_of_lookup in Hin as [i Hi].
        destruct (Htr i t Hi) as (j & Hj & _). congruence. }
      assert (Hold : ∀ i t, threads w !! i = Some t →
                ∃ j, <[u := new_job params]> (jobs w) !! w_job_id t = Some j ∧
                     job_at (w_at t) j ∧ job_params_of j = params_of t).
      { intros i t Hi. destruct (Htr i t Hi) as (j & Hj & Hat & Hpar).
        exists j. rewrite lookup_insert_ne; [easy|].
        intros ->. apply Hu. apply list_elem_of_fmap. exists t. split; [easy|].
        apply list_elem_of_lookup; eauto. }
      destruct Hgen as [Hgen | (e & _ & Hgen)]; rewrite Hgen; cbn; constructor; cbn.
      * rewrite fmap_app. apply NoDup_app. split; [exact Hnd|]. split.
        -- intros x Hx Hx'. cbn in Hx'. apply list_elem_of_singleton in Hx'. now subst x.
        -- apply NoDup_singleton.
      * intros i t Hi. apply lookup_app_Some in Hi as [Hi | [_ Hi]]; [now apply (Hold i)|].
        apply list_lookup_singleton_Some in Hi as [_ <-]. cbn.
        exists (new_job params). rewrite lookup_insert_eq.
        split; [easy|]. split; [now repeat split|]. now destruct params.
      * intros job_id j Hj. rewrite fmap_app, elem_of_app. cbn.
        destruct (decide (u = job_id)) as [<-|Hne].
        -- left. right. apply list_elem_of_here.
        -- rewrite lookup_insert_ne in Hj by exact Hne.
           destruct (Hown job_id j Hj) as [Hin | Horphan]; [left; now left | now right].
      * exact Hnd.
      * exact Hold.
      * intros job_id j Hj.
        destruct (decide (u = job_id)) as [<-|Hne].
        -- rewrite lookup_insert_eq in Hj. injection Hj as <-. now right.
        -- rewrite lookup_insert_ne in Hj by exact Hne. now apply (Hown job_id).
  - unfold run_thread. destruct (threads w !! i) as [t|] eqn:Ht; [|exact Hw].
    destruct Hw as [Hnd Htr Hown].
    destruct (Htr i t Ht) as (jt & Hjt & Hat & Hpar).
    destruct (worker_step_spec P t w jt Hjt Hat)
      as (j' & Hjobs & Hthreads & Hargs & Hid & Hat' & Hpar' & _).
    destruct (worker_step P t w) as [t' w']; cbn in *.
    assert (Hids : w_job_id <$> <[i := t']> (threads w') = w_job_id <$> threads w).
    { rewrite Hthreads, list_fmap_insert, Hid. apply list_insert_id.
      now rewrite list_lookup_fmap, Ht. }
    constructor; cbn.
    + now rewrite Hids.
    + intros i2 t2 Hi2. rewrite Hjobs, Hthreads in *.
      destruct (decide (i = i2)) as [<-|Hne].
      * rewrite list_lookup_insert_eq in Hi2 by (eapply lookup_lt_Some; eauto).
        injection Hi2 as <-. exists j'. rewrite Hid, lookup_insert_eq.
        split; [easy|]. split; [easy|]. congruence.
      * rewrite list_lookup_insert_ne in Hi2 by exact Hne.
        destruct (Htr i2 t2 Hi2) as (j2 & Hj2 & Hat2 & Hpar2).
        exists j2. rewrite lookup_insert_ne; [easy|].
        intros Heq. apply Hne.
        apply (NoDup_lookup _ i i2 (w_job_id t) Hnd);
          rewrite list_lookup_fmap; [rewrite Ht | rewrite Hi2]; cbn; congruence.
    + intros job_id j Hj. rewrite Hids. rewrite Hjobs in Hj.
      destruct (decide (w_job_id t = job_id)) as [<-|Hne].
      * left. apply list_elem_of_fmap. exists t. split; [reflexivity|].
        apply list_elem_of_lookup; eauto.
      * rewrite lookup_insert_ne in Hj by exact Hne. now apply Hown.
Qed.

(** ** The request validation *)

(** A request that is turned down is answered by an error message and the
    code 400. *)
Lemma generate_validate_rejects (P : poster_module) (data : json) (resp : response) :
  generate_validate P data = Ret (inl resp) ->
  ∃ msg, resp = jsonify_error msg 400.
Proof.
  unfold generate_validate. intros H.
  destruct (py_get data "city" (JStr "") ≫= py_strip) as [city|]; [|discriminate].
  destruct (py_get data "country" (JStr "") ≫= py_strip) as [country|]; [|discriminate].
  cbn in H.
  destruct (bool_decide (city = "") || bool_decide (country = ""));
    [injection H as <-; eauto|].
  destruct (py_get data "theme" (JStr "feature_based")) as [theme_name|]; [|discriminate].
  destruct (py_get data "distance" (JInt 10000)) as [distance|]; [|discriminate].
  destruct (or_None <$> (py_get data "display_name" (JStr "") ≫= py_strip))
    as [display_name|]; [|discriminate].
  destruct (unhandled (get_available_themes P)) as [available|]; [|discriminate].
  cbn in H.
  destruct (theme_in theme_name available); [|injection H as <-; eauto].
  destruct (py_int python distance) as [d|[]]; try discriminate; [|injection H as <-; eauto].
  destruct ((d <? 1000) || (d >? 50000)); [injection H as <-; eauto | discriminate].
Qed.

Lemma issued_id_error (msg : string) (code : Z) :
  issued_id (Ret (jsonify_error msg code)) = None.
Proof. reflexivity. Qed.

Lemma issued_id_job (j : job) : issued_id (Ret (jsonify_job j)) = None.
Proof. reflexivity. Qed.

(** The only response that hands out a job id is the one of a submission
    that was accepted, and the id is the identifier just drawn. *)
Lemma step_issued (l : label) (w : world) (r : outcome exn_class response) (job_id : string) :
  (step l w).1 = Some r -> issued_id r = Some job_id ->
  ∃ P data params, l = Submit P job_id (Ret tt) data ∧
    generate_validate P data = Ret (inr params) ∧
    (step l w).2 = start_thread job_id params (create_job job_id params w).
Proof.
  destruct l as [P u started data|q|i P]; cbn; [| |discriminate].
  - unfold generate.
    destruct (generate_validate P data) as [[resp|params]|c] eqn:Hv; cbn.
    + apply generate_validate_rejects in Hv as [msg ->].
      intros [= <-]. now rewrite issued_id_error.
    + destruct started as [[]|e]; cbn.
      * intros [= <-] [= <-]. eauto 6.
      * intros [= <-]. discriminate.
    + intros [= <-]. discriminate.
  - intros [= <-]. unfold get_status. destruct (jobs w !! q).
    + now rewrite issued_id_job.
    + now rewrite issued_id_error.
Qed.

(** ** Runs of the application *)

Lemma NoDup_uuids_prefix (ls ls' : list label) :
  NoDup (uuids (ls ++ ls')) -> NoDup (uuids ls).
Proof. rewrite uuids_app. intros H. now apply NoDup_app in H as [H _]. Qed.

Lemma fresh_from_dom (ls : list label) (l : label) :
  (∀ job_id, is_Some (jobs (world_after ls) !! job_id) → job_id ∈ uuids ls) ->
  NoDup (uuids (ls ++ [l])) ->
  draws_fresh l (world_after ls).
Proof.
  intros Hdom Hnd u Hdraw.
  rewrite uuids_app in Hnd. apply NoDup_app in Hnd as (_ & Hnew & _).
  destruct (jobs (world_after ls) !! u) eqn:Hu; [|reflexivity].
  exfalso. apply (Hnew u); [apply Hdom; eauto|].
  unfold uuids; cbn. rewrite Hdraw. apply list_elem_of_here.
Qed.

(** Along a run in which [uuid.uuid4()] never yields the same value twice,
    the state stays consistent, the ids in the table are identifiers that
    were drawn, and every id handed to a client is in the table. *)
Lemma run_invariant (ls : list label) :
  NoDup (uuids ls) ->
  consistent (world_after ls) ∧
  (∀ job_id, is_Some (jobs (world_after ls) !! job_id) → job_id ∈ uuids ls) ∧
  (∀ job_id, job_id ∈ issued_ids (responses ls) →
             is_Some (jobs (world_after ls) !! job_id)).
Proof.
  induction ls as [|l ls IH] using rev_ind; intros Hnd.
  - split; [|split].
    + constructor; cbn.
      * constructor.
      * intros i t Hi. now rewrite lookup_nil in Hi.
      * intros job_id j Hj. now rewrite lookup_empty in Hj.
    + intros job_id [j Hj]. cbn in Hj. now rewrite lookup_empty in Hj.
    + intros job_id Hin. cbn in Hin. now apply elem_of_nil in Hin.
  - destruct (IH (NoDup_uuids_prefix _ _ Hnd)) as (Hcons & Hdom & Hiss).
    pose proof (fresh_from_dom ls l Hdom Hnd) as Hfresh.
    rewrite world_after_snoc, responses_snoc, uuids_app.
    split; [now apply step_consistent|]. split.
    + intros job_id Hsome. apply elem_of_app.
      destruct (jobs (world_after ls) !! job_id) as [j|] eqn:Hj; [left; apply Hdom; eauto|].
      right. destruct l as [P u started data|q|i P].
      * rewrite step_Submit_world in Hsome.
        destruct (generate_world P u started data (world_after ls))
          as [Hsame | (params & Hvalid & Hgen)].
        -- rewrite Hsame, Hj in Hsome. now destruct Hsome.
        -- destruct (decide (u = job_id)) as [<-|Hne].
           { unfold uuids; cbn. rewrite Hvalid. apply list_elem_of_here. }
           destruct Hgen as [Hgen | (e & _ & Hgen)]; rewrite Hgen in Hsome;
             cbn in Hsome; rewrite lookup_insert_ne, Hj in Hsome by exact Hne;
             now destruct Hsome.
      * cbn in Hsome. rewrite Hj in Hsome. now destruct Hsome.
      * exfalso. cbn in Hsome. unfold run_thread in Hsome.
        destruct (threads (world_after ls) !! i) as [t|] eqn:Ht;
          [|rewrite Hj in Hsome; now destruct Hsome].
        destruct (threads_tracked _ Hcons i t Ht) as (jt & Hjt & Hat & _).
        destruct (worker_step_spec P t _ jt Hjt Hat) as (j' & Hjobs & _).
        destruct (worker_step P t (world_after ls)) as [t' w']; cbn in *.
        rewrite Hjobs in Hsome.
        destruct (decide (w_job_id t = job_id)) as [<-|Hne]; [congruence|].
        rewrite lookup_insert_ne, Hj in Hsome by exact Hne. now destruct Hsome.
    + intros job_id Hin. unfold issued_ids in Hin. rewrite omap_app in Hin.
      apply elem_of_app in Hin as [Hin | Hin].
      * destruct (Hiss job_id Hin) as [j Hj].
        destruct (step_job l _ job_id j Hcons Hfresh Hj) as (j' & Hj' & _). eauto.
      * destruct (step l (world_after ls)).1 as [r|] eqn:Hr; cbn in Hin;
          [|now apply elem_of_nil in Hin].
        destruct (issued_id r) eqn:Hid; cbn in Hin; [|now apply elem_of_nil in Hin].
        apply list_elem_of_singleton in Hin as ->.
        destruct (step_issued l _ r _ Hr Hid) as (P & data & params & -> & _ & Hw).
        rewrite Hw; cbn. rewrite lookup_insert_eq. eauto.
Qed.

(** One more step of a run moves every job record by at most one update of
    its worker, and leaves its parameters alone. *)
Lemma run_step (ls : list label) (l : label) (job_id : string) (j : job) :
  NoDup (uuids (ls ++ [l])) ->
  jobs (world_after ls) !! job_id = Some j ->
  ∃ j', jobs (world_after (ls ++ [l])) !! job_id = Some j' ∧
        job_params_of j' = job_params_of j ∧
        (j' = j ∨ advances j j' ∨ fails j j').
Proof.
  intros Hnd Hj. rewrite world_after_snoc.
  destruct (run_invariant ls (NoDup_uuids_prefix _ _ Hnd)) as (Hcons & Hdom & _).
  apply step_job; [exact Hcons | now apply fresh_from_dom | exact Hj].
Qed.

(** A job is never removed from the table, and its parameters never change. *)
Lemma job_stays (ls ls' : list label) (job_id : string) (j : job) :
  NoDup (uuids (ls ++ ls')) ->
  jobs (world_after ls) !! job_id = Some j ->
  ∃ j', jobs (world_after (ls ++ ls')) !! job_id = Some j' ∧
        job_params_of j' = job_params_of j.
Proof.
  induction ls' as [|l ls' IH] using rev_ind; intros Hnd Hj.
  - rewrite app_nil_r. eauto.
  - rewrite app_assoc in Hnd |- *.
    destruct (IH (NoDup_uuids_prefix _ _ Hnd) Hj) as (j1 & Hj1 & Hp1).
    destruct (run_step _ l job_id j1 Hnd Hj1) as (j2 & Hj2 & Hp2 & _).
    exists j2. split; [exact Hj2 | congruence].
Qed.

(** The record of a finished job (complete or error) never changes again. *)
Lemma finished_stays (ls ls' : list label) (job_id : string) (j : job) :
  NoDup (uuids (ls ++ ls')) ->
  jobs (world_after ls) !! job_id = Some j ->
  unfinished (job_status j) = false ->
  jobs (world_after (ls ++ ls')) !! job_id = Some j.
Proof.
  induction ls' as [|l ls' IH] using rev_ind; intros Hnd Hj Hfin.
  - now rewrite app_nil_r.
  - rewrite app_assoc in Hnd |- *.
    specialize (IH (NoDup_uuids_prefix _ _ Hnd) Hj Hfin).
    destruct (run_step _ l job_id j Hnd IH) as (j2 & Hj2 & _ & [-> | [Hadv | Hfail]]).
    + exact Hj2.
    + apply advances_permitted, permitted_unfinished in Hadv. congruence.
    + apply fails_permitted, permitted_unfinished in Hfail. congruence.
Qed.

(** ** The worker function and the worker thread agree *)

(** Running [run_generation] in one go is scheduling its thread five times
    in a row. *)
Lemma run_generation_as_steps (P : poster_module) (job_id city country theme_name : string)
    (distance : Z) (display_name : option string) (w : world) :
  let t0 := Worker job_id city country theme_name distance display_name Spawned in
  run_generation P job_id city country theme_name distance display_name w
  = (exit_of (w_at (worker_steps 5 P t0 w).1), (worker_steps 5 P t0 w).2).
Proof.
  unfold run_generation, run_generation_try, try_except_Exception, run_generation_except.
  cbn -[basename].
  unfold worker_step, try_except_Exception, resume, run_generation_except,
    update, call, assign_THEME, mbind, M_bind, mret, M_ret.
  cbn -[basename].
  destruct (get_coordinates P city country) as [coords|e]; cbn -[basename];
    [|now destruct (is_Exception e)].
  destruct (load_theme P theme_name) as [theme|e]; cbn -[basename];
    [|now destruct (is_Exception e)].
  destruct (generate_output_filename P _ theme_name) as [output_file|e]; cbn -[basename];
    [|now destruct (is_Exception e)].
  destruct (create_poster P city country coords distance output_file display_name)
    as [[]|e]; cbn -[basename]; [reflexivity|now destruct (is_Exception e)].
Qed.

(** A thread that is not finished gets closer to the end at every step. *)
Lemma worker_step_progress (P : poster_module) (t : worker) (w : world) :
  (0 < steps_left (w_at t))%nat ->
  (steps_left (w_at (worker_step P t w).1) < steps_left (w_at t))%nat.
Proof.
  unfold worker_step, try_except_Exception, resume, run_generation_except,
    update, call, assign_THEME, mbind, M_bind, mret, M_ret.
  destruct (w_at t) as [| |coords|coords|coords output_file|how|e]; cbn; try lia; intros _.
  - destruct (get_coordinates P _ _) as [?|e]; [|destruct (is_Exception e)]; cbn; lia.
  - destruct (load_theme P _) as [?|e]; [|destruct (is_Exception e)]; cbn; lia.
  - destruct (generate_output_filename P _ _) as [?|e]; [|destruct (is_Exception e)];
      cbn; lia.
  - destruct (create_poster P _ _ _ _ _ _) as [?|e]; [|destruct (is_Exception e)];
      cbn; lia.
Qed.

(** ** The worker function on one job *)

Lemma update_lookup (jobs : gmap string job) job_id j status progress result error :
  jobs !! job_id = Some j ->
  update_job_status job_id status progress result error jobs !! job_id
  = Some (apply_update status progress result error j).
Proof.
  intros H. rewrite (update_job_status_present _ _ _ _ _ _ _ H).
  apply lookup_insert_eq.
Qed.

Ltac unfold_worker :=
  unfold run_generation, run_generation_try, try_except_Exception,
    run_generation_except, update, call, assign_THEME, mbind, M_bind, mret, M_ret.

(** When the [try] block raises an [Exception], the handler records it:
    [run_generation] returns, the job is in status ["error"] with [str(e)]
    as its message, and its progress, result and parameters are those it had
    when the exception was raised. *)
Lemma run_generation_raises (P : poster_module) (job_id city country theme_name : string)
    (distance : Z) (display_name : option string) (w w1 : world) (j : job) (e : exn) :
  jobs w !! job_id = Some j ->
  run_generation_try P job_id city country theme_name distance display_name w
  = (Raise e, w1) ->
  is_Exception e = true ->
  ∃ w' j1 j',
    run_generation P job_id city country theme_name distance display_name w
    = (Ret tt, w') ∧
    jobs w1 !! job_id = Some j1 ∧
    jobs w' !! job_id = Some j' ∧
    j' = apply_update "error" None None (Some (exn_str e)) j1 ∧
    job_progress j1 ∈ [10; 20; 30; 50] ∧
    job_result j1 = job_result j ∧
    job_params_of j1 = job_params_of j.
Proof.
  intros Hj Htry He. unfold_worker. revert Htry. unfold_worker. cbn -[basename].
  destruct (get_coordinates P city country) as [coords|e1]; cbn -[basename].
  2: { intros [= <- <-]. rewrite He. cbn.
       do 3 eexists. split; [reflexivity|].
       split; [repeat (eapply update_lookup); exact Hj|].
       split; [repeat (eapply update_lookup); exact Hj|].
       cbn. repeat split. settle_member. }
  destruct (load_theme P theme_name) as [theme|e1]; cbn -[basename].
  2: { intros [= <- <-]. rewrite He. cbn.
       do 3 eexists. split; [reflexivity|].
       split; [repeat (eapply update_lookup); exact Hj|].
       split; [repeat (eapply update_lookup); exact Hj|].
       cbn. repeat split. settle_member. }
  destruct (generate_output_filename P _ theme_name) as [output_file|e1]; cbn -[basename].
  2: { intros [= <- <-]. rewrite He. cbn.
       do 3 eexists. split; [reflexivity|].
       split; [repeat (eapply update_lookup); exact Hj|].
       split; [repeat (eapply update_lookup); exact Hj|].
       cbn. repeat split. settle_member. }
  destruct (create_poster P city country coords distance output_file display_name)
    as [[]|e1]; cbn -[basename]; [discriminate|].
  intros [= <- <-]. rewrite He. cbn.
  do 3 eexists. split; [reflexivity|].
  split; [repeat (eapply update_lookup); exact Hj|].
  split; [repeat (eapply update_lookup); exact Hj|].
  cbn. repeat split. settle_member.
Qed.

(** When the four calls into the collaborator return, [run_generation]
    returns with the job in status ["complete"], progress 100, and the base
    name of the output file as its result. *)
Lemma run_generation_returns (P : poster_module) (job_id city country theme_name : string)
    (distance : Z) (display_name : option string) (w : world) (j : job)
    (coords theme : json) (output_file : string) :
  jobs w !! job_id = Some j ->
  get_coordinates P city country = Ret coords ->
  load_theme P theme_name = Ret theme ->
  generate_output_filename P (filename_city_of display_name city) theme_name
  = Ret output_file ->
  create_poster P city country coords distance output_file display_name = Ret tt ->
  ∃ w' j',
    run_generation P job_id city country theme_name distance display_name w
    = (Ret tt, w') ∧
    jobs w' !! job_id = Some j' ∧
    job_status j' = "complete" ∧
    job_progress j' = 100 ∧
    job_result j' = Some (basename output_file) ∧
    job_error j' = job_error j ∧
    job_params_of j' = job_params_of j.
Proof.
  intros Hj Hgeo Hth Hout Hren. unfold_worker. cbn -[basename].
  rewrite Hgeo; cbn -[basename]. rewrite Hth; cbn -[basename].
  rewrite Hout; cbn -[basename]. rewrite Hren; cbn -[basename].
  do 2 eexists. split; [reflexivity|].
  split; [repeat (eapply update_lookup); exact Hj|].
  cbn -[basename]. repeat split.
Qed.

(** A record enters the table only through an accepted submission, as a
    pending job. *)
Lemma step_creates (l : label) (w : world) (job_id : string) (j' : job) :
  consistent w ->
  jobs w !! job_id = None ->
  jobs (step l w).2 !! job_id = Some j' ->
  ∃ params, j' = new_job params.
Proof.
  intros Hw Hnone Hj'. destruct l as [P u started data|q|i P].
  - rewrite step_Submit_world in Hj'.
    destruct (generate_world P u started data w) as [Hsame | (params & Hvalid & _)].
    + rewrite Hsame in Hj'. congruence.
    + rewrite (generate_jobs P u started data w params Hvalid) in Hj'.
      destruct (decide (u = job_id)) as [<-|Hne].
      * rewrite lookup_insert_eq in Hj'. injection Hj' as <-. eauto.
      * rewrite lookup_insert_ne in Hj' by exact Hne. congruence.
  - cbn in Hj'. congruence.
  - cbn in Hj'. unfold run_thread in Hj'.
    destruct (threads w !! i) as [t|] eqn:Ht; [|congruence].
    destruct (threads_tracked w Hw i t Ht) as (jt & Hjt & Hat & _).
    destruct (worker_step_spec P t w jt Hjt Hat) as (j2 & Hjobs & _).
    destruct (worker_step P t w) as [t' w']; cbn in *. rewrite Hjobs in Hj'.
    destruct (decide (w_job_id t = job_id)) as [<-|Hne]; [congruence|].
    rewrite lookup_insert_ne in Hj' by exact Hne. congruence.
Qed.


(** In a run, the record of the job of a thread shows where the thread
    stands. *)
Lemma thread_record (ls : list label) (i : nat) (t : worker) :
  NoDup (uuids ls) ->
  threads (world_after ls) !! i = Some t ->
  ∃ j, jobs (world_after ls) !! w_job_id t = Some j ∧ job_at (w_at t) j ∧
       job_params_of j = params_of t.
Proof.
  intros Hnd Ht. destruct (run_invariant ls Hnd) as (Hcons & _).
  exact (threads_tracked _ Hcons i t Ht).
Qed.

(** In a run, a record in status "error" carries the progress of a phase
    and no result. *)
Lemma error_record_shape (ls : list label) (job_id : string) (j : job) :
  NoDup (uuids ls) ->
  jobs (world_after ls) !! job_id = Some j ->
  job_status j = "error" ->
  job_progress j ∈ [10; 20; 30; 50] ∧ job_result j = None.
Proof.
  intros Hnd Hj Hst. destruct (run_invariant ls Hnd) as (Hcons & _).
  destruct (jobs_owned _ Hcons job_id j Hj) as [Hin | Horphan];
    [|rewrite Horphan in Hst; discriminate].
  apply list_elem_of_fmap in Hin as (t & -> & Hin).
  apply list_elem_of_lookup in Hin as [i Hi].
  destruct (threads_tracked _ Hcons i t Hi) as (j2 & Hj2 & Hat & _).
  assert (j2 = j) as -> by congruence.
  destruct (w_at t) as [| |coords|coords|coords output_file|[output_file|e]|e];
    cbn in Hat; unfold shows, in_progress in Hat.
  1-6: destruct Hat as (Hs & _); congruence.
  - now destruct Hat as (_ & Hp & Hr & _).
  - destruct Hat as (Hin & _).
    rewrite Hst in Hin. rewrite !elem_of_cons, elem_of_nil in Hin.
    destruct Hin as [H|[H|[H|[H|[]]]]]; discriminate.
Qed.

Lemma advances_not_error j j' : advances j j' -> job_status j' ≠ "error".
Proof.
  unfold advances, successor. intros H Herr.
  repeat (destruct (String.eqb (job_status j) _);
          [injection H as H _; congruence|]).
  discriminate.
Qed.

Lemma phase_progress_bounds (z : Z) : z ∈ [10; 20; 30; 50] -> z ≠ 0 ∧ z ≠ 100.
Proof. rewrite !elem_of_cons, elem_of_nil. lia. Qed.

(** ** The submission handler *)

Lemma prefix_app (a b : string) : String.prefix a (a +:+ b) = true.
Proof.
  induction a as [|c a IH]; simpl; [now destruct b|].
  destruct (ascii_dec c c) as [_|Hne]; [exact IH | now destruct Hne].
Qed.

Lemma contains_prefix (sub s : string) : String.prefix sub s = true -> contains sub s = true.
Proof. intros H. destruct s; cbn [contains]; now rewrite H. Qed.

Lemma contains_app (a sub b : string) : contains sub (a +:+ sub +:+ b) = true.
Proof.
  induction a as [|c a IH].
  - change (contains sub (sub +:+ b) = true).
    apply contains_prefix, prefix_app.
  - change (contains sub (String c (a +:+ sub +:+ b)) = true).
    cbn [contains]. rewrite IH. apply orb_true_r.
Qed.

(** What [generate] does with a request whose body is a JSON object and whose
    [city], [country] and [display_name] are strings or absent, once the
    theme listing has returned. *)
Lemma generate_text_fields (P : poster_module) (uuid4 : string)
    (thread_start : outcome exn unit) (d : list (string * json)) (w : world)
    (city country display_name : string) (available_themes : list string) :
  py_strip (field d "city" (JStr "")) = Ret city ->
  py_strip (field d "country" (JStr "")) = Ret country ->
  py_strip (field d "display_name" (JStr "")) = Ret display_name ->
  get_available_themes P = Ret available_themes ->
  city ≠ "" -> country ≠ "" ->
  generate P uuid4 thread_start (JDict d) w =
  match theme_in (field d "theme" (JStr "feature_based")) available_themes with
  | None =>
      (Ret (jsonify_error
              ("Theme '" +:+ format_value (field d "theme" (JStr "feature_based"))
               +:+ "' not found") 400), w)
  | Some theme_name =>
      match py_int python (field d "distance" (JInt 10000)) with
      | Ret distance =>
          if (1000 <=? distance) && (distance <=? 50000)
          then
            let params :=
              JobParams city country theme_name distance (or_None display_name) in
            let stored := create_job uuid4 params w in
            match thread_start with
            | Ret _ => (Ret (jsonify_job_id uuid4), start_thread uuid4 params stored)
            | Raise e => (Raise (exn_cls e), stored)
            end
          else
            (Ret (jsonify_error "Distance must be between 1000 and 50000 meters" 400), w)
      | Raise ValueError => (Ret (jsonify_error "Invalid distance value" 400), w)
      | Raise c => (Raise c, w)
      end
  end.
Proof.
  intros Hcity Hcountry Hname Hthemes Hc Hk.
  unfold generate, generate_validate, py_get. fold (field d "city" (JStr "")).
  fold (field d "country" (JStr "")). fold (field d "display_name" (JStr "")).
  fold (field d "theme" (JStr "feature_based")). fold (field d "distance" (JInt 10000)).
  cbn [mbind outcome_bind]. rewrite Hcity, Hcountry. cbn [mbind outcome_bind].
  rewrite !bool_decide_eq_false_2 by assumption. cbn [orb].
  rewrite Hname, Hthemes. cbn [fmap outcome_fmap unhandled mbind outcome_bind].
  destruct (theme_in _ available_themes) as [theme_name|]; [|reflexivity].
  destruct (py_int _ _) as [distance|[]]; try reflexivity.
  replace ((1000 <=? distance) && (distance <=? 50000))
    with (negb ((distance <? 1000) || (distance >? 50000))).
  - now destruct ((distance <? 1000) || (distance >? 50000)).
  - rewrite negb_orb, Z.gtb_ltb, <- !Z.leb_antisym. reflexivity.
Qed.

(** ** The lock keeps the blocks whole *)

Lemma holder_view_inside A tbl c : holder_view A tbl c -> outside c = false.
Proof. destruct c as [? ? ? ? ? []|? ? []|? []]; cbn; easy. Qed.

Lemma left_block_outside c : left_block c = true -> outside c = true.
Proof. destruct c as [? ? ? ? ? []|? ? []|? []]; cbn; easy. Qed.

Lemma block_effect_restart c T : block_effect (restart c) T = block_effect c T.
Proof. now destruct c. Qed.

Lemma pool_lookup_same (l : list call_state) k c c' :
  l !! k = Some c -> <[k := c']> l !! k = Some c'.
Proof. intros H. apply list_lookup_insert_eq. eapply lookup_lt_Some; eauto. Qed.

Lemma pool_lookup_moved (l : list call_state) k k2 c' c2 (Q : call_state -> Prop) :
  <[k := c']> l !! k2 = Some c2 ->
  Q c' -> (∀ c, k2 ≠ k -> l !! k2 = Some c -> Q c) -> Q c2.
Proof.
  intros Hk2 Hnew Hold. destruct (decide (k2 = k)) as [->|Hne].
  - destruct (l !! k) as [c|] eqn:Hk.
    + rewrite (pool_lookup_same _ _ _ _ Hk) in Hk2. now injection Hk2 as <-.
    + rewrite list_insert_ge in Hk2 by (now apply lookup_ge_None). congruence.
  - rewrite list_lookup_insert_ne in Hk2 by congruence. now apply Hold.
Qed.

(** A committed table stays committed when a thread moves, as long as a
    thread that has left its block stays so. *)
Lemma committed_moved s0 running k c c' T :
  running !! k = Some c ->
  (left_block c = true -> left_block c' = true) ->
  committed s0 running T -> committed s0 (<[k := c']> running) T.
Proof.
  intros Hk Hleft (order & Hnd & Hdone & ->).
  exists order. split; [exact Hnd|]. split; [|reflexivity].
  intros k2 Hk2. destruct (Hdone k2 Hk2) as (c2 & Hc2 & Hl2).
  destruct (decide (k2 = k)) as [->|Hne].
  - exists c'. split; [now apply (pool_lookup_same _ _ c)|].
    apply Hleft. congruence.
  - exists c2. now rewrite list_lookup_insert_ne by congruence.
Qed.

(** The thread that leaves its block commits the table with its whole block
    added. *)
Lemma committed_extend s0 running k c c' A :
  running !! k = Some c ->
  pool s0 !! k = Some (restart c) ->
  left_block c = false -> left_block c' = true ->
  committed s0 running A ->
  committed s0 (<[k := c']> running) (block_effect c A).
Proof.
  intros Hk Hk0 Hin Hout (order & Hnd & Hdone & ->).
  exists (order ++ [k])%list. split; [|split].
  - apply NoDup_app. split; [exact Hnd|]. split; [|apply NoDup_singleton].
    intros k2 Hk2 Hk2'. apply list_elem_of_singleton in Hk2' as ->.
    destruct (Hdone k Hk2) as (c2 & Hc2 & Hl2). congruence.
  - intros k2 Hk2. apply elem_of_app in Hk2 as [Hk2 | Hk2].
    + destruct (Hdone k2 Hk2) as (c2 & Hc2 & Hl2).
      assert (Hne : k2 ≠ k) by (intros ->; congruence).
      exists c2. now rewrite list_lookup_insert_ne by congruence.
    + apply list_elem_of_singleton in Hk2 as ->.
      exists c'. split; [now apply (pool_lookup_same _ _ c) | exact Hout].
  - unfold replay. rewrite foldl_app; cbn. rewrite Hk0; cbn.
    now rewrite block_effect_restart.
Qed.

Lemma reader_view_moved s0 running k c c' c2 :
  running !! k = Some c ->
  (left_block c = true -> left_block c' = true) ->
  reader_view s0 running c2 -> reader_view s0 (<[k := c']> running) c2.
Proof.
  intros Hk Hleft.
  destruct c2 as [| |job_id []]; cbn; try easy;
    intros (T & HT & Hread); exists T; (split; [|exact Hread]);
    now apply (committed_moved s0 running k c c').
Qed.

(** What every step keeps: the calls and the data of the other threads. *)
Lemma moved_frame s0 s k c c' :
  lock_inv s0 s -> pool s !! k = Some c ->
  restart c' = restart c ->
  (left_block c = true -> left_block c' = true) ->
  reader_view s0 (<[k := c']> (pool s)) c' ->
  (∀ k2 c2, <[k := c']> (pool s) !! k2 = Some c2 → pool s0 !! k2 = Some (restart c2)) ∧
  (∀ k2 c2, <[k := c']> (pool s) !! k2 = Some c2 →
            reader_view s0 (<[k := c']> (pool s)) c2).
Proof.
  intros (Hcalls & Hreaders & _) Hk Hsame Hleft Hread. split.
  - intros k2 c2 Hk2. destruct (decide (k2 = k)) as [->|Hne].
    + rewrite (pool_lookup_same _ _ _ _ Hk) in Hk2. injection Hk2 as <-.
      rewrite Hsame. now apply Hcalls.
    + rewrite list_lookup_insert_ne in Hk2 by congruence. now apply Hcalls.
  - intros k2 c2 Hk2. apply (pool_lookup_moved _ _ _ _ _ _ Hk2 Hread).
    intros c0 _ Hc0. apply (reader_view_moved s0 (pool s) k c c'); eauto.
Qed.

(** A thread that is inside a block is the holder of the lock. *)
Lemma inside_holds_lock s0 s k c :
  lock_inv s0 s -> pool s !! k = Some c -> outside c = false ->
  jobs_lock s = Some k ∧
  ∃ A, committed s0 (pool s) A ∧ holder_view A (table s) c ∧
       ∀ k2 c2, k2 ≠ k -> pool s !! k2 = Some c2 -> outside c2 = true.
Proof.
  intros (_ & _ & A & HA & Hlock) Hk Hin.
  destruct (jobs_lock s) as [h|].
  - destruct Hlock as ((c0 & Hh & Hview) & Hothers).
    destruct (decide (k = h)) as [->|Hne].
    + assert (c0 = c) as -> by congruence. eauto 6.
    + rewrite (Hothers k c Hne Hk) in Hin. discriminate.
  - destruct Hlock as (_ & Hall). rewrite (Hall k c Hk) in Hin. discriminate.
Qed.

Lemma inside_not_left c : outside c = false -> left_block c = true -> False.
Proof. intros Hin Hleft. apply left_block_outside in Hleft. congruence. Qed.

(** Entering a block. *)
Lemma inv_enter s0 s k c c' :
  lock_inv s0 s -> pool s !! k = Some c ->
  restart c' = restart c -> left_block c = false -> outside c' = false ->
  holder_view (table s) (table s) c' ->
  lock_inv s0 (acquire k c' s).
Proof.
  intros Hinv Hk Hsame Hnot Hin Hview. unfold acquire.
  destruct (jobs_lock s) as [h|] eqn:Hl; [exact Hinv|].
  assert (Hleft : left_block c = true -> left_block c' = true) by congruence.
  assert (Hread : reader_view s0 (<[k := c']> (pool s)) c').
  { destruct c' as [| |? []]; cbn in *; easy. }
  destruct (moved_frame s0 s k c c' Hinv Hk Hsame Hleft Hread) as (Hcalls' & Hreaders').
  destruct Hinv as (_ & _ & A & HA & Hlock). rewrite Hl in Hlock.
  destruct Hlock as (<- & Hall). split; [exact Hcalls'|]. split; [exact Hreaders'|].
  exists (table s). split; [now apply (committed_moved s0 _ k c c')|]. cbn. split.
  - exists c'. split; [now apply (pool_lookup_same _ _ c) | exact Hview].
  - intros k2 c2 Hne Hk2. rewrite list_lookup_insert_ne in Hk2 by congruence. eauto.
Qed.

(** A statement inside a block. *)
Lemma inv_inside s0 s k c c' tbl' :
  lock_inv s0 s -> pool s !! k = Some c ->
  restart c' = restart c -> outside c = false -> outside c' = false ->
  (∀ A, holder_view A (table s) c -> holder_view A tbl' c') ->
  lock_inv s0 (Machine tbl' (jobs_lock s) (<[k := c']> (pool s))).
Proof.
  intros Hinv Hk Hsame Hin Hin' Hstep.
  destruct (inside_holds_lock s0 s k c Hinv Hk Hin) as (Hl & A & HA & Hview & Hothers).
  assert (Hleft : left_block c = true -> left_block c' = true).
  { intros Hl'. destruct (inside_not_left c Hin Hl'). }
  assert (Hread : reader_view s0 (<[k := c']> (pool s)) c').
  { destruct c' as [| |? []]; cbn in *; easy. }
  destruct (moved_frame s0 s k c c' Hinv Hk Hsame Hleft Hread) as (Hcalls' & Hreaders').
  split; [exact Hcalls'|]. split; [exact Hreaders'|].
  exists A. split; [now apply (committed_moved s0 _ k c c')|]. cbn. rewrite Hl. split.
  - exists c'. split; [now apply (pool_lookup_same _ _ c) | now apply Hstep].
  - intros k2 c2 Hne Hk2. rewrite list_lookup_insert_ne in Hk2 by congruence. eauto.
Qed.

(** Leaving a block. *)
Lemma inv_exit s0 s k c c' :
  lock_inv s0 s -> pool s !! k = Some c ->
  restart c' = restart c -> outside c = false -> left_block c' = true ->
  (∀ A, holder_view A (table s) c -> table s = block_effect c A) ->
  (∀ A, holder_view A (table s) c ->
        committed s0 (<[k := c']> (pool s)) A ->
        reader_view s0 (<[k := c']> (pool s)) c') ->
  lock_inv s0 (release k c' s).
Proof.
  intros Hinv Hk Hsame Hin Hout Heffect Hread.
  destruct (inside_holds_lock s0 s k c Hinv Hk Hin) as (Hl & A & HA & Hview & Hothers).
  assert (Hnot : left_block c = false).
  { destruct (left_block c) eqn:Hlc; [destruct (inside_not_left c Hin Hlc) | reflexivity]. }
  assert (Hleft : left_block c = true -> left_block c' = true) by congruence.
  assert (HA' : committed s0 (<[k := c']> (pool s)) A)
    by now apply (committed_moved s0 _ k c c').
  destruct (moved_frame s0 s k c c' Hinv Hk Hsame Hleft (Hread A Hview HA'))
    as (Hcalls' & Hreaders').
  split; [exact Hcalls'|]. split; [exact Hreaders'|].
  exists (table s). split.
  - rewrite (Heffect A Hview).
    destruct Hinv as (Hcalls & _).
    now apply (committed_extend s0 _ k c c' A Hk (Hcalls k c Hk)).
  - cbn. split; [reflexivity|].
    intros k2 c2 Hk2.
    apply (pool_lookup_moved _ _ _ _ _ (fun c => outside c = true) Hk2).
    + now apply left_block_outside.
    + intros c0 Hne. now apply Hothers.
Qed.

(** A statement outside the blocks. *)
Lemma inv_outside s0 s k c c' :
  lock_inv s0 s -> pool s !! k = Some c ->
  restart c' = restart c -> outside c = true -> outside c' = true ->
  (left_block c = true -> left_block c' = true) ->
  (∀ running, reader_view s0 running c -> reader_view s0 running c') ->
  lock_inv s0 (moved k c' s).
Proof.
  intros Hinv Hk Hsame Hout Hout' Hleft Hread.
  assert (Hread' : reader_view s0 (<[k := c']> (pool s)) c').
  { apply Hread. apply (reader_view_moved s0 (pool s) k c c'); auto.
    destruct Hinv as (_ & Hreaders & _). now apply (Hreaders k). }
  destruct (moved_frame s0 s k c c' Hinv Hk Hsame Hleft Hread') as (Hcalls' & Hreaders').
  destruct Hinv as (_ & _ & A & HA & Hlock).
  split; [exact Hcalls'|]. split; [exact Hreaders'|].
  exists A. split; [now apply (committed_moved s0 _ k c c')|]. cbn.
  destruct (jobs_lock s) as [h|].
  - destruct Hlock as ((c0 & Hh & Hview) & Hothers).
    assert (Hne : h ≠ k).
    { intros ->. assert (c0 = c) as -> by congruence.
      apply holder_view_inside in Hview. congruence. }
    split.
    + exists c0. rewrite list_lookup_insert_ne by congruence. eauto.
    + intros k2 c2 Hne2 Hk2.
      apply (pool_lookup_moved _ _ _ _ _ (fun c => outside c = true) Hk2 Hout').
      intros c1 _. now apply Hothers.
  - destruct Hlock as (Htbl & Hall). split; [exact Htbl|].
    intros k2 c2 Hk2.
    apply (pool_lookup_moved _ _ _ _ _ (fun c => outside c = true) Hk2 Hout').
    intros c1 _. apply Hall.
Qed.

Lemma update_job_status_missing (jobs : gmap string job) job_id status progress result error :
  jobs !! job_id = None ->
  update_job_status job_id status progress result error jobs = jobs.
Proof. intros H. unfold update_job_status. now rewrite H. Qed.

Lemma writes_done_all status progress result error j :
  writes_done 4 status progress result error j
  = apply_update status progress result error j.
Proof. reflexivity. Qed.

(** Every statement of every thread keeps the invariant. *)
Lemma thread_step_inv s0 s k : lock_inv s0 s -> lock_inv s0 (thread_step k s).
Proof.
  intros Hinv. unfold thread_step.
  destruct (pool s !! k) as [c|] eqn:Hk; [|exact Hinv].
  destruct c as [job_id status progress result error pc | job_id params pc | job_id pc].
  - destruct pc as [| |n| |].
    + now apply (inv_enter s0 s k _ _ Hinv Hk).
    + destruct (decide (is_Some (table s !! job_id))) as [[j Hj]|Hno].
      * apply (inv_inside s0 s k _ _ _ Hinv Hk); [reflexivity..|].
        cbn. intros A <-. split; [lia|]. exists j. split; [exact Hj|].
        now rewrite insert_id.
      * apply (inv_inside s0 s k _ _ _ Hinv Hk); [reflexivity..|].
        cbn. intros A <-. rewrite update_job_status_missing; [reflexivity|].
        destruct (table s !! job_id) eqn:HA; [|reflexivity]. destruct Hno. eauto.
    + apply (inv_inside s0 s k _ _ _ Hinv Hk);
        [reflexivity | reflexivity | now destruct (decide _) |].
      cbn. intros A (Hn & j & Hj & ->). rewrite alter_insert_eq.
      destruct (decide (n < 3)%nat) as [Hlt|Hge]; cbn.
      * split; [lia|]. exists j. split; [exact Hj | reflexivity].
      * assert (n = 3%nat) as -> by lia.
        rewrite (update_job_status_present _ _ _ _ _ _ _ Hj). reflexivity.
    + apply (inv_exit s0 s k _ _ Hinv Hk); [reflexivity..| |]; cbn; easy.
    + exact Hinv.
  - destruct pc.
    + now apply (inv_enter s0 s k _ _ Hinv Hk).
    + apply (inv_inside s0 s k _ _ _ Hinv Hk); [reflexivity..|].
      cbn. now intros A <-.
    + apply (inv_exit s0 s k _ _ Hinv Hk); [reflexivity..| |]; cbn; easy.
    + exact Hinv.
  - destruct pc as [| | | | |j|j|r].
    + now apply (inv_enter s0 s k _ _ Hinv Hk).
    + destruct (decide (is_Some (table s !! job_id))) as [Hyes|Hno].
      * apply (inv_inside s0 s k _ _ _ Hinv Hk); [reflexivity..|].
        cbn. now intros A <-.
      * apply (inv_inside s0 s k _ _ _ Hinv Hk); [reflexivity..|].
        cbn. intros A <-. split; [reflexivity|].
        destruct (table s !! job_id) eqn:HA; [|reflexivity]. destruct Hno. eauto.
    + apply (inv_exit s0 s k _ _ Hinv Hk); [reflexivity..| |]; cbn.
      * now intros A (<- & _).
      * intros A (<- & Hnone) HA. exists (table s). split; [exact HA|].
        unfold get_status. now rewrite Hnone.
    + destruct (table s !! job_id) as [j|] eqn:Hj.
      * apply (inv_inside s0 s k _ _ _ Hinv Hk); [reflexivity..|].
        cbn. intros A (<- & _). now split.
      * apply (inv_inside s0 s k _ _ _ Hinv Hk); [reflexivity..|].
        cbn. intros A (<- & [j Hsome]). congruence.
    + apply (inv_exit s0 s k _ _ Hinv Hk); [reflexivity..| |]; cbn; easy.
    + apply (inv_exit s0 s k _ _ Hinv Hk); [reflexivity..| |]; cbn.
      * now intros A (<- & _).
      * intros A (<- & Hj) HA. eauto.
    + apply (inv_outside s0 s k _ _ Hinv Hk); [reflexivity..|].
      cbn. intros running (T & HT & Hj). exists T. split; [exact HT|].
      unfold get_status. now rewrite Hj.
    + exact Hinv.
Qed.

Lemma run_schedule_inv s0 schedule s :
  lock_inv s0 s -> lock_inv s0 (run_schedule schedule s).
Proof.
  revert s. induction schedule as [|k schedule IH]; intros s Hinv; [exact Hinv|].
  apply IH. now apply thread_step_inv.
Qed.

Lemma unstarted_outside c : unstarted c = true -> outside c = true.
Proof. destruct c as [? ? ? ? ? []|? ? []|? []]; cbn; easy. Qed.

Lemma unstarted_restart c : unstarted c = true -> restart c = c.
Proof. destruct c as [? ? ? ? ? []|? ? []|? []]; cbn; easy. Qed.

Lemma initial_lock_inv s :
  jobs_lock s = None -> (∀ c, c ∈ pool s -> unstarted c = true) -> lock_inv s s.
Proof.
  intros Hl Hall.
  assert (Hun : ∀ k c, pool s !! k = Some c -> unstarted c = true).
  { intros k c Hk. apply Hall. apply list_elem_of_lookup. eauto. }
  split; [|split].
  - intros k c Hk. now rewrite (unstarted_restart c (Hun k c Hk)).
  - intros k c Hk. specialize (Hun k c Hk).
    destruct c as [? ? ? ? ? []|? ? []|? []]; cbn in *; easy.
  - exists (table s). split.
    + exists []. split; [constructor|]. split; [|reflexivity].
      intros k Hk. now apply elem_of_nil in Hk.
    + rewrite Hl. split; [reflexivity|].
      intros k c Hk. apply unstarted_outside. eauto.
Qed.

(** ** The lock loses no block *)

Lemma all_committed_moved s0 running k c c' T :
  running !! k = Some c -> left_block c' = left_block c ->
  all_committed s0 running T -> all_committed s0 (<[k := c']> running) T.
Proof.
  intros Hk Hleft (order & Hnd & Hdone & ->).
  exists order. split; [exact Hnd|]. split; [|reflexivity].
  intros k2. rewrite Hdone. destruct (decide (k2 = k)) as [->|Hne].
  - rewrite (pool_lookup_same _ _ _ _ Hk), Hk.
    split; intros (c0 & [= <-] & Hl); eexists; (split; [reflexivity|]); congruence.
  - now rewrite list_lookup_insert_ne by congruence.
Qed.

Lemma all_committed_extend s0 running k c c' A :
  running !! k = Some c ->
  pool s0 !! k = Some (restart c) ->
  left_block c = false -> left_block c' = true ->
  all_committed s0 running A ->
  all_committed s0 (<[k := c']> running) (block_effect c A).
Proof.
  intros Hk Hk0 Hin Hout (order & Hnd & Hdone & ->).
  exists (order ++ [k])%list. split; [|split].
  - apply NoDup_app. split; [exact Hnd|]. split; [|apply NoDup_singleton].
    intros k2 Hk2 Hk2'. apply list_elem_of_singleton in Hk2' as ->.
    apply Hdone in Hk2 as (c2 & Hc2 & Hl2). congruence.
  - intros k2. rewrite elem_of_app, list_elem_of_singleton, Hdone.
    destruct (decide (k2 = k)) as [->|Hne].
    + rewrite (pool_lookup_same _ _ _ _ Hk). split; [eauto|]. now right.
    + rewrite list_lookup_insert_ne by congruence.
      split; [intros [H|H]; [exact H|congruence] | now left].
  - unfold replay. rewrite foldl_app; cbn. rewrite Hk0; cbn.
    now rewrite block_effect_restart.
Qed.

Lemma lossless_frame s0 s k c c' :
  lossless s0 s -> pool s !! k = Some c -> restart c' = restart c ->
  length (<[k := c']> (pool s)) = length (pool s0) ∧
  ∀ k2 c2, <[k := c']> (pool s) !! k2 = Some c2 → pool s0 !! k2 = Some (restart c2).
Proof.
  intros (Hlen & Hcalls & _) Hk Hsame. split; [now rewrite length_insert|].
  intros k2 c2 Hk2. destruct (decide (k2 = k)) as [->|Hne].
  - rewrite (pool_lookup_same _ _ _ _ Hk) in Hk2. injection Hk2 as <-.
    rewrite Hsame. now apply Hcalls.
  - rewrite list_lookup_insert_ne in Hk2 by congruence. now apply Hcalls.
Qed.

Lemma lossless_holder s0 s k c :
  lossless s0 s -> pool s !! k = Some c -> outside c = false ->
  jobs_lock s = Some k ∧
  ∃ A, all_committed s0 (pool s) A ∧ holder_view A (table s) c ∧
       ∀ k2 c2, k2 ≠ k -> pool s !! k2 = Some c2 -> outside c2 = true.
Proof.
  intros (_ & _ & A & HA & Hlock) Hk Hin.
  destruct (jobs_lock s) as [h|].
  - destruct Hlock as ((c0 & Hh & Hview) & Hothers).
    destruct (decide (k = h)) as [->|Hne].
    + assert (c0 = c) as -> by congruence. eauto 6.
    + rewrite (Hothers k c Hne Hk) in Hin. discriminate.
  - destruct Hlock as (_ & Hall). rewrite (Hall k c Hk) in Hin. discriminate.
Qed.

Lemma lossless_enter s0 s k c c' :
  lossless s0 s -> pool s !! k = Some c ->
  restart c' = restart c -> left_block c = false -> outside c' = false ->
  holder_view (table s) (table s) c' ->
  lossless s0 (acquire k c' s).
Proof.
  intros Hinv Hk Hsame Hnot Hin Hview. unfold acquire.
  destruct (jobs_lock s) as [h|] eqn:Hl; [exact Hinv|].
  assert (Hleft : left_block c' = left_block c).
  { rewrite Hnot. destruct (left_block c') eqn:Hl'; [|reflexivity].
    destruct (inside_not_left c' Hin Hl'). }
  destruct (lossless_frame s0 s k c c' Hinv Hk Hsame) as (Hlen' & Hcalls').
  destruct Hinv as (_ & _ & A & HA & Hlock). rewrite Hl in Hlock.
  destruct Hlock as (<- & Hall). split; [exact Hlen'|]. split; [exact Hcalls'|].
  exists (table s). split; [now apply (all_committed_moved s0 _ k c c')|]. cbn. split.
  - exists c'. split; [now apply (pool_lookup_same _ _ c) | exact Hview].
  - intros k2 c2 Hne Hk2. rewrite list_lookup_insert_ne in Hk2 by congruence. eauto.
Qed.

Lemma lossless_inside s0 s k c c' tbl' :
  lossless s0 s -> pool s !! k = Some c ->
  restart c' = restart c -> outside c = false -> outside c' = false ->
  (∀ A, holder_view A (table s) c -> holder_view A tbl' c') ->
  lossless s0 (Machine tbl' (jobs_lock s) (<[k := c']> (pool s))).
Proof.
  intros Hinv Hk Hsame Hin Hin' Hstep.
  destruct (lossless_holder s0 s k c Hinv Hk Hin) as (Hl & A & HA & Hview & Hothers).
  assert (Hleft : left_block c' = left_block c).
  { destruct (left_block c) eqn:H1; [destruct (inside_not_left c Hin H1)|].
    destruct (left_block c') eqn:H2; [destruct (inside_not_left c' Hin' H2)|reflexivity]. }
  destruct (lossless_frame s0 s k c c' Hinv Hk Hsame) as (Hlen' & Hcalls').
  split; [exact Hlen'|]. split; [exact Hcalls'|].
  exists A. split; [now apply (all_committed_moved s0 _ k c c')|]. cbn. rewrite Hl. split.
  - exists c'. split; [now apply (pool_lookup_same _ _ c) | now apply Hstep].
  - intros k2 c2 Hne Hk2. rewrite list_lookup_insert_ne in Hk2 by congruence. eauto.
Qed.

Lemma lossless_exit s0 s k c c' :
  lossless s0 s -> pool s !! k = Some c ->
  restart c' = restart c -> outside c = false -> left_block c' = true ->
  (∀ A, holder_view A (table s) c -> table s = block_effect c A) ->
  lossless s0 (release k c' s).
Proof.
  intros Hinv Hk Hsame Hin Hout Heffect.
  destruct (lossless_holder s0 s k c Hinv Hk Hin) as (Hl & A & HA & Hview & Hothers).
  assert (Hnot : left_block c = false).
  { destruct (left_block c) eqn:Hlc; [destruct (inside_not_left c Hin Hlc) | reflexivity]. }
  destruct (lossless_frame s0 s k c c' Hinv Hk Hsame) as (Hlen' & Hcalls').
  split; [exact Hlen'|]. split; [exact Hcalls'|].
  exists (table s). split.
  - rewrite (Heffect A Hview).
    destruct Hinv as (_ & Hcalls & _).
    now apply (all_committed_extend s0 _ k c c' A Hk (Hcalls k c Hk)).
  - cbn. split; [reflexivity|].
    intros k2 c2 Hk2.
    apply (pool_lookup_moved _ _ _ _ _ (fun c => outside c = true) Hk2).
    + now apply left_block_outside.
    + intros c0 Hne. now apply Hothers.
Qed.

Lemma lossless_outside s0 s k c c' :
  lossless s0 s -> pool s !! k = Some c ->
  restart c' = restart c -> outside c = true -> outside c' = true ->
  left_block c' = left_block c ->
  lossless s0 (moved k c' s).
Proof.
  intros Hinv Hk Hsame Hout Hout' Hleft.
  destruct (lossless_frame s0 s k c c' Hinv Hk Hsame) as (Hlen' & Hcalls').
  destruct Hinv as (_ & _ & A & HA & Hlock).
  split; [exact Hlen'|]. split; [exact Hcalls'|].
  exists A. split; [now apply (all_committed_moved s0 _ k c c')|]. cbn.
  destruct (jobs_lock s) as [h|].
  - destruct Hlock as ((c0 & Hh & Hview) & Hothers).
    assert (Hne : h ≠ k).
    { intros ->. assert (c0 = c) as -> by congruence.
      apply holder_view_inside in Hview. congruence. }
    split.
    + exists c0. rewrite list_lookup_insert_ne by congruence. eauto.
    + intros k2 c2 Hne2 Hk2.
      apply (pool_lookup_moved _ _ _ _ _ (fun c => outside c = true) Hk2 Hout').
      intros c1 _. now apply Hothers.
  - destruct Hlock as (Htbl & Hall). split; [exact Htbl|].
    intros k2 c2 Hk2.
    apply (pool_lookup_moved _ _ _ _ _ (fun c => outside c = true) Hk2 Hout').
    intros c1 _. apply Hall.
Qed.

Lemma thread_step_lossless s0 s k : lossless s0 s -> lossless s0 (thread_step k s).
Proof.
  intros Hinv. unfold thread_step.
  destruct (pool s !! k) as [c|] eqn:Hk; [|exact Hinv].
  destruct c as [job_id status progress result error pc | job_id params pc | job_id pc].
  - destruct pc as [| |n| |].
    + now apply (lossless_enter s0 s k _ _ Hinv Hk).
    + destruct (decide (is_Some (table s !! job_id))) as [[j Hj]|Hno].
      * apply (lossless_inside s0 s k _ _ _ Hinv Hk); [reflexivity..|].
        cbn. intros A <-. split; [lia|]. exists j. split; [exact Hj|].
        now rewrite insert_id.
      * apply (lossless_inside s0 s k _ _ _ Hinv Hk); [reflexivity..|].
        cbn. intros A <-. rewrite update_job_status_missing; [reflexivity|].
        destruct (table s !! job_id) eqn:HA; [|reflexivity]. destruct Hno. eauto.
    + apply (lossless_inside s0 s k _ _ _ Hinv Hk);
        [reflexivity | reflexivity | now destruct (decide _) |].
      cbn. intros A (Hn & j & Hj & ->). rewrite alter_insert_eq.
      destruct (decide (n < 3)%nat) as [Hlt|Hge]; cbn.
      * split; [lia|]. exists j. split; [exact Hj | reflexivity].
      * assert (n = 3%nat) as -> by lia.
        rewrite (update_job_status_present _ _ _ _ _ _ _ Hj). reflexivity.
    + apply (lossless_exit s0 s k _ _ Hinv Hk); [reflexivity..|]; cbn; easy.
    + exact Hinv.
  - destruct pc.
    + now apply (lossless_enter s0 s k _ _ Hinv Hk).
    + apply (lossless_inside s0 s k _ _ _ Hinv Hk); [reflexivity..|].
      cbn. now intros A <-.
    + apply (lossless_exit s0 s k _ _ Hinv Hk); [reflexivity..|]; cbn; easy.
    + exact Hinv.
  - destruct pc as [| | | | |j|j|r].
    + now apply (lossless_enter s0 s k _ _ Hinv Hk).
    + destruct (decide (is_Some (table s !! job_id))) as [Hyes|Hno].
      * apply (lossless_inside s0 s k _ _ _ Hinv Hk); [reflexivity..|].
        cbn. now intros A <-.
      * apply (lossless_inside s0 s k _ _ _ Hinv Hk); [reflexivity..|].
        cbn. intros A <-. split; [reflexivity|].
        destruct (table s !! job_id) eqn:HA; [|reflexivity]. destruct Hno. eauto.
    + apply (lossless_exit s0 s k _ _ Hinv Hk); [reflexivity..|]; cbn.
      now intros A (<- & _).
    + destruct (table s !! job_id) as [j|] eqn:Hj.
      * apply (lossless_inside s0 s k _ _ _ Hinv Hk); [reflexivity..|].
        cbn. intros A (<- & _). now split.
      * apply (lossless_inside s0 s k _ _ _ Hinv Hk); [reflexivity..|].
        cbn. intros A (<- & [j Hsome]). congruence.
    + apply (lossless_exit s0 s k _ _ Hinv Hk); [reflexivity..|]; cbn; easy.
    + apply (lossless_exit s0 s k _ _ Hinv Hk); [reflexivity..|]; cbn.
      now intros A (<- & _).
    + now apply (lossless_outside s0 s k _ _ Hinv Hk).
    + exact Hinv.
Qed.

Lemma run_schedule_lossless s0 schedule s :
  lossless s0 s -> lossless s0 (run_schedule schedule s).
Proof.
  revert s. induction schedule as [|k schedule IH]; intros s Hinv; [exact Hinv|].
  apply IH. now apply thread_step_lossless.
Qed.

Lemma initial_lossless s :
  jobs_lock s = None -> (∀ c, c ∈ pool s -> unstarted c = true) -> lossless s s.
Proof.
  intros Hl Hall. split; [reflexivity|]. split.
  - intros k c Hk. rewrite unstarted_restart; [exact Hk|].
    apply Hall. eapply list_elem_of_lookup_2, Hk.
  - exists (table s). split.
    + exists []. split; [constructor|]. split; [|reflexivity].
      intros k. split; [intros Hk; now apply elem_of_nil in Hk|].
      intros (c & Hk & Hleft). exfalso.
      assert (Hun : unstarted c = true) by (apply Hall; eapply list_elem_of_lookup_2, Hk).
      destruct c as [? ? ? ? ? []|? ? []|? []]; discriminate.
    + rewrite Hl. split; [reflexivity|].
      intros k c Hk. apply unstarted_outside, Hall. eapply list_elem_of_lookup_2, Hk.
Qed.

(** ** The moment at which a query reads the table *)







(** ** What a worker leaves alone, and what no step removes *)

Lemma touches_only_refl (job_id : string) (w : world) : touches_only job_id w w.
Proof. now repeat split. Qed.

Lemma touches_only_trans (job_id : string) (w1 w2 w3 : world) :
  touches_only job_id w1 w2 -> touches_only job_id w2 w3 -> touches_only job_id w1 w3.
Proof.
  intros (Ht1 & Hd1 & Ho1) (Ht2 & Hd2 & Ho2). repeat split; [congruence..|].
  intros other Hne. now rewrite Ho2, Ho1.
Qed.

Lemma keeps_bind {A B} (job_id : string) (m : M A) (k : A -> M B) :
  keeps (touches_only job_id) m -> (∀ a, keeps (touches_only job_id) (k a)) ->
  keeps (touches_only job_id) (m ≫= k).
Proof.
  intros Hm Hk w. unfold mbind, M_bind. specialize (Hm w).
  destruct (m w) as [[a|e] w1]; cbn in *; [|exact Hm].
  eapply touches_only_trans; [exact Hm|apply Hk].
Qed.

Lemma keeps_call {A} (job_id : string) (r : outcome exn A) :
  keeps (touches_only job_id) (call r).
Proof. intros w. apply touches_only_refl. Qed.

Lemma keeps_assign_THEME (job_id : string) (t : json) :
  keeps (touches_only job_id) (assign_THEME t).
Proof. intros w. now repeat split. Qed.

Lemma keeps_update (job_id status : string) (progress : option Z)
    (result error : option string) :
  keeps (touches_only job_id) (update job_id status progress result error).
Proof.
  intros w. repeat split; cbn.
  - unfold update_job_status. destruct (jobs w !! job_id) as [j|] eqn:Hj; [|reflexivity].
    apply dom_insert_lookup_L. now rewrite Hj.
  - intros other Hne. now apply update_job_status_other.
Qed.

Lemma keeps_try {A} (job_id : string) (body : M A) (handler : exn -> M A) :
  keeps (touches_only job_id) body -> (∀ e, keeps (touches_only job_id) (handler e)) ->
  keeps (touches_only job_id) (try_except_Exception body handler).
Proof.
  intros Hb Hh w. unfold try_except_Exception. specialize (Hb w).
  destruct (body w) as [[a|e] w1]; cbn in *; [exact Hb|].
  destruct (is_Exception e); [|exact Hb].
  eapply touches_only_trans; [exact Hb|apply Hh].
Qed.

Lemma run_generation_touches_only (P : poster_module)
    (job_id city country theme_name : string) (distance : Z)
    (display_name : option string) :
  keeps (touches_only job_id)
    (run_generation P job_id city country theme_name distance display_name).
Proof.
  apply keeps_try; [|intros e; apply keeps_update].
  unfold run_generation_try.
  repeat (first [ apply keeps_update | apply keeps_call | apply keeps_assign_THEME
                | apply keeps_bind; [|intros ?] ]).
Qed.






(** * The properties of the specification *)

(** [C1] In every run of the application, a step changes the record of a job
    in one of these ways only: the record is created with status "pending"
    and progress 0; it is left as it is; or it moves by a permitted
    transition, that is, to the next status of the sequence pending,
    geocoding, loading_theme, downloading, rendering, complete with progress
    10, 20, 30, 50, 100 respectively, or from an unfinished status to
    "error". Every such move is forward in the sequence, so the status never
    regresses, and a job in status "complete" or "error" stays as it is.
    ([uuid.uuid4()] is taken never to yield the same value twice.) *)
Theorem status_follows_sequence (ls : list label) (l : label) (job_id : string) (j' : job) :
  NoDup (uuids (ls ++ [l])) ->
  jobs (world_after (ls ++ [l])) !! job_id = Some j' ->
  match jobs (world_after ls) !! job_id with
  | None => job_status j' = "pending" ∧ job_progress j' = 0
  | Some j =>
      j' = j ∨
      (permitted j j' ∧ (rank (job_status j) < rank (job_status j'))%nat)
  end.
Proof.
  intros Hnd Hj'.
  destruct (jobs (world_after ls) !! job_id) as [j|] eqn:Hj.
  - destruct (run_step ls l job_id j Hnd Hj) as (j2 & Hj2 & _ & Hmove).
    assert (j2 = j') as -> by congruence.
    destruct Hmove as [-> | [Hadv | Hfail]]; [now left | right | right].
    + apply advances_permitted in Hadv. split; [exact Hadv | now apply permitted_rank].
    + apply fails_permitted in Hfail. split; [exact Hfail | now apply permitted_rank].
  - rewrite world_after_snoc in Hj'.
    destruct (run_invariant ls (NoDup_uuids_prefix _ _ Hnd)) as (Hcons & _).
    destruct (step_creates l _ job_id j' Hcons Hj Hj') as [params ->].
    now split.
Qed.



(** [C4] When the four calls of the worker into the collaborator return,
    [run_generation] returns with the job in status "complete" and progress
    100; the result field is the base name of the path produced by
    [generate_output_filename], which is not empty since that path names a
    file. In every run of the application, the job of a worker that has
    completed with that output file shows just that, and the record never
    changes again. *)
Theorem completed_job_has_result (P : poster_module)
    (job_id city country theme_name : string) (distance : Z)
    (display_name : option string) (w : world) (j : job)
    (coords theme : json) (output_file : string) :
  jobs w !! job_id = Some j ->
  get_coordinates P city country = Ret coords ->
  load_theme P theme_name = Ret theme ->
  generate_output_filename P (filename_city_of display_name city) theme_name
  = Ret output_file ->
  create_poster P city country coords distance output_file display_name = Ret tt ->
  names_file output_file = true ->
  ∃ w' j',
    run_generation P job_id city country theme_name distance display_name w
    = (Ret tt, w') ∧
    jobs w' !! job_id = Some j' ∧
    job_status j' = "complete" ∧
    job_progress j' = 100 ∧
    job_result j' = Some (basename output_file) ∧
    basename output_file ≠ "" ∧
    (∀ ls ls' i t, NoDup (uuids (ls ++ ls')) ->
       threads (world_after ls) !! i = Some t ->
       w_at t = Returned (Completed output_file) ->
       ∃ j2, jobs (world_after ls) !! w_job_id t = Some j2 ∧
             job_status j2 = "complete" ∧
             job_progress j2 = 100 ∧
             job_result j2 = Some (basename output_file) ∧
             jobs (world_after (ls ++ ls')) !! w_job_id t = Some j2).
Proof.
  intros Hj Hgeo Hth Hout Hren Hfile.
  destruct (run_generation_returns P job_id city country theme_name distance
              display_name w j coords theme output_file Hj Hgeo Hth Hout Hren)
    as (w' & j' & Hrun & Hj' & Hst & Hpr & Hres & _).
  exists w', j'. repeat (split; [assumption|]).
  split; [now apply basename_names_file|].
  intros ls ls' i t Hnd Ht Hpos.
  destruct (thread_record ls i t (NoDup_uuids_prefix _ _ Hnd) Ht) as (j2 & Hj2 & Hat & _).
  rewrite Hpos in Hat. destruct Hat as (Hst2 & Hp2 & Hr2 & _).
  exists j2. repeat (split; [assumption|]).
  apply finished_stays; [exact Hnd | exact Hj2 | now rewrite Hst2].
Qed.

(** [C5] The handler at a request whose city is missing and whose country
    is [null]: [data.get('country', '')] yields [None], the key being
    present, and [None.strip()] raises [AttributeError], which nothing
    catches, so the exception leaves the handler instead of a response
    with the code 400. *)
Theorem null_country_unhandled (P : poster_module) (uuid4 : string)
    (thread_start : outcome exn unit) (w : world) :
  generate P uuid4 thread_start (JDict [("country", JNull)]) w
  = (Raise AttributeError, w).
Proof. reflexivity. Qed.

(** [C6] The handler at a request whose distance is [null]: [int(None)]
    raises [TypeError], which the [except ValueError] clause of lines 132-137
    does not catch, so the exception leaves the handler instead of a
    response with the code 400. *)
Theorem null_distance_unhandled (uuid4 : string) (thread_start : outcome exn unit)
    (w : world) :
  generate poster_ok uuid4 thread_start
    (JDict [("city", JStr "Paris"); ("country", JStr "France");
            ("theme", JStr "noir"); ("distance", JNull)]) w
  = (Raise TypeError, w).
Proof. reflexivity. Qed.

(** [C7, as amended] When a request gets as far as the theme check (its
    city and country are strings that are not blank, its display name is
    absent or a string, and the theme listing returns) and its theme id is
    not an available theme, the handler answers 400 with the message
    "Theme '<id>' not found", which contains the theme id, and leaves the
    state as it was: no job is created. *)
Theorem unknown_theme_rejected (P : poster_module) (uuid4 : string)
    (thread_start : outcome exn unit) (d : list (string * json)) (w : world)
    (city country display_name : string) (available_themes : list string) :
  py_strip (field d "city" (JStr "")) = Ret city ->
  py_strip (field d "country" (JStr "")) = Ret country ->
  py_strip (field d "display_name" (JStr "")) = Ret display_name ->
  get_available_themes P = Ret available_themes ->
  city ≠ "" -> country ≠ "" ->
  let theme_name := field d "theme" (JStr "feature_based") in
  theme_in theme_name available_themes = None ->
  let msg := "Theme '" +:+ format_value theme_name +:+ "' not found" in
  generate P uuid4 thread_start (JDict d) w = (Ret (jsonify_error msg 400), w) ∧
  contains (format_value theme_name) msg = true.
Proof.
  intros Hcity Hcountry Hname Hthemes Hc Hk theme_name Hunknown msg.
  rewrite (generate_text_fields P uuid4 thread_start d w city country display_name available_themes)
    by assumption.
  fold theme_name. rewrite Hunknown. split; [reflexivity|].
  apply contains_app.
Qed.


(** [C9] An update addressed to a job id that is not in the table changes
    nothing: the table is returned as it was, and no record is created. *)
Theorem update_job_status_absent (jobs : gmap string job) (job_id status : string)
    (progress : option Z) (result error : option string) :
  jobs !! job_id = None ->
  update_job_status job_id status progress result error jobs = jobs.
Proof.
  intros Habsent. unfold update_job_status. now rewrite Habsent.
Qed.

(** [C10] An update of an existing job leaves the progress, the result and
    the error as they were when the corresponding argument is [None], and
    never touches the stored parameters. In particular, when the worker
    raises, the job in status "error" keeps the progress of the last phase
    it reached (10, 20, 30 or 50, so neither 0 nor 100) and keeps its result
    [None]; and in every run of the application, the step that puts a job
    in status "error" leaves its progress and its parameters as they were,
    and its result [None]. *)
Theorem update_keeps_unnamed_fields (jobs0 : gmap string job) (job_id status : string)
    (progress : option Z) (result error : option string) (j : job) :
  jobs0 !! job_id = Some j ->
  (∃ j', update_job_status job_id status progress result error jobs0 !! job_id = Some j' ∧
     (progress = None -> job_progress j' = job_progress j) ∧
     (result = None -> job_result j' = job_result j) ∧
     (error = None -> job_error j' = job_error j) ∧
     job_params_of j' = job_params_of j) ∧
  (∀ P city country theme_name distance display_name w w1 e,
     jobs w = jobs0 ->
     job_result j = None ->
     run_generation_try P job_id city country theme_name distance display_name w
     = (Raise e, w1) ->
     is_Exception e = true ->
     ∃ j1 j2,
       jobs w1 !! job_id = Some j1 ∧
       jobs (run_generation P job_id city country theme_name distance
               display_name w).2 !! job_id = Some j2 ∧
       job_status j2 = "error" ∧
       job_progress j2 = job_progress j1 ∧
       job_progress j2 ∈ [10; 20; 30; 50] ∧
       job_progress j2 ≠ 0 ∧ job_progress j2 ≠ 100 ∧
       job_result j2 = None ∧
       job_params_of j2 = job_params_of j) ∧
  (∀ ls l j1 j2,
     NoDup (uuids (ls ++ [l])) ->
     jobs (world_after ls) !! job_id = Some j1 ->
     jobs (world_after (ls ++ [l])) !! job_id = Some j2 ->
     job_status j1 ≠ "error" ->
     job_status j2 = "error" ->
     job_progress j2 = job_progress j1 ∧
     job_progress j2 ∈ [10; 20; 30; 50] ∧
     job_result j2 = None ∧
     job_params_of j2 = job_params_of j1).
Proof.
  intros Hj. split; [|split].
  - exists (apply_update status progress result error j).
    split; [now apply update_lookup|].
    rewrite apply_update_progress, apply_update_result, apply_update_error,
      apply_update_params.
    repeat split; now intros ->.
  - intros P city country theme_name distance display_name w w1 e Hw Hres Htry He.
    subst jobs0.
    destruct (run_generation_raises P job_id city country theme_name distance
                display_name w w1 j e Hj Htry He)
      as (w' & j1 & j' & Hrun & Hj1 & Hj' & -> & Hprog & Hres1 & Hpar).
    exists j1, (apply_update "error" None None (Some (exn_str e)) j1).
    rewrite Hrun. split; [exact Hj1|]. split; [exact Hj'|].
    split; [reflexivity|]. split; [reflexivity|].
    assert (Hin : job_progress (apply_update "error" None None (Some (exn_str e)) j1)
                  ∈ [10; 20; 30; 50]) by exact Hprog.
    split; [exact Hin|].
    destruct (phase_progress_bounds _ Hin) as [Hlo Hhi].
    repeat split; [exact Hlo | exact Hhi | cbn; congruence | exact Hpar].
  - intros ls l j1 j2 Hnd Hj1 Hj2 Hbefore Hafter.
    destruct (error_record_shape (ls ++ [l]) job_id j2 Hnd Hj2 Hafter) as (Hprog & Hres).
    destruct (run_step ls l job_id j1 Hnd Hj1) as (j3 & Hj3 & Hpar & Hmove).
    assert (j3 = j2) as -> by congruence.
    destruct Hmove as [-> | [Hadv | (_ & msg & ->)]].
    + congruence.
    + now apply advances_not_error in Hadv.
    + repeat split; [exact Hprog | exact Hres].
Qed.

(** * Further properties *)

(** ** The theme listing *)



Lemma entry_id_theme_entry theme_name theme_data :
  entry_id (theme_entry theme_name theme_data) = Some (JStr theme_name).
Proof. reflexivity. Qed.



(** Every entry the loop adds is the entry of a listed theme. *)
Lemma get_themes_loop_entries (THEMES_DIR : string) (json_load : string -> outcome exn json)
    (theme_names : list string) (themes out : list json) :
  get_themes_loop THEMES_DIR json_load theme_names themes = Ret out ->
  ∀ entry, entry ∈ out ->
    entry ∈ themes ∨
    ∃ theme_name theme_data,
      theme_name ∈ theme_names ∧ entry = theme_entry theme_name theme_data.
Proof.
  revert themes. induction theme_names as [|n rest IH]; intros themes Hloop entry Hentry.
  - cbn in Hloop. injection Hloop as <-. now left.
  - cbn [get_themes_loop] in Hloop.
    assert (Hskip : get_themes_loop THEMES_DIR json_load rest themes = Ret out ->
              entry ∈ themes ∨
              ∃ theme_name theme_data,
                theme_name ∈ n :: rest ∧ entry = theme_entry theme_name theme_data).
    { intros H. destruct (IH _ H entry Hentry) as [Hin | (m & d & Hm & ->)]; [now left|].
      right. exists m, d. split; [now apply list_elem_of_further | reflexivity]. }
    destruct (json_load (path_join THEMES_DIR (n +:+ ".json"))) as [v|e].
    + destruct v as [| | | | | |theme_data]; try (now apply Hskip).
      destruct (IH _ Hloop entry Hentry) as [Hin | (m & d & Hm & ->)].
      * apply elem_of_app in Hin as [Hin | Hin]; [now left|].
        apply list_elem_of_singleton in Hin as ->.
        right. exists n, theme_data. split; [apply list_elem_of_here | reflexivity].
      * right. exists m, d. split; [now apply list_elem_of_further | reflexivity].
    + destruct (is_Exception e); [now apply Hskip | discriminate].
Qed.


(** [X2] Every theme id that the listing offers passes the theme check of
    the submission handler, as long as the two requests see the same
    directory listing. *)
Theorem listed_theme_is_accepted (P : poster_module) (THEMES_DIR : string)
    (json_load : string -> outcome exn json) (themes : list json)
    (theme_names : list string) (entry : json) (id : json) :
  get_available_themes P = Ret theme_names ->
  get_themes P THEMES_DIR json_load = Ret (Response (JList themes) 200) ->
  entry ∈ themes ->
  entry_id entry = Some id ->
  ∃ theme_name, id = JStr theme_name ∧ theme_in id theme_names = Some theme_name.
Proof.
  intros Hnames Hget Hentry Hid. unfold get_themes in Hget.
  rewrite Hnames in Hget. cbn in Hget.
  destruct (get_themes_loop THEMES_DIR json_load theme_names []) as [out|e] eqn:Hloop;
    cbn in Hget; [|discriminate].
  injection Hget as <-.
  destruct (get_themes_loop_entries _ _ _ _ _ Hloop entry Hentry)
    as [Hnil | (n & d & Hn & ->)]; [now apply elem_of_nil in Hnil|].
  rewrite entry_id_theme_entry in Hid. injection Hid as <-.
  exists n. split; [reflexivity|]. cbn.
  now rewrite bool_decide_eq_true_2.
Qed.

(** ** The job table *)

Lemma apply_update_twice s1 p1 r1 e1 s2 p2 r2 e2 j :
  apply_update s2 p2 r2 e2 (apply_update s1 p1 r1 e1 j)
  = apply_update s2 (later_arg p2 p1) (later_arg r2 r1) (later_arg e2 e1) j.
Proof. now destruct p1, r1, e1, p2, r2, e2. Qed.

(** [X3] Two updates of the same job in a row are one update: with the
    status of the second, and for each of progress, result and error the
    argument of the second when it is given, else that of the first. So an
    update applied twice is the update applied once. *)
Theorem update_job_status_twice (jobs : gmap string job) (job_id : string)
    (s1 s2 : string) (p1 p2 : option Z) (r1 r2 e1 e2 : option string) :
  update_job_status job_id s2 p2 r2 e2 (update_job_status job_id s1 p1 r1 e1 jobs)
  = update_job_status job_id s2 (later_arg p2 p1) (later_arg r2 r1) (later_arg e2 e1) jobs
  ∧
  update_job_status job_id s1 p1 r1 e1 (update_job_status job_id s1 p1 r1 e1 jobs)
  = update_job_status job_id s1 p1 r1 e1 jobs.
Proof.
  assert (Hgen : ∀ s1 p1 r1 e1 s2 p2 r2 e2,
            update_job_status job_id s2 p2 r2 e2
              (update_job_status job_id s1 p1 r1 e1 jobs)
            = update_job_status job_id s2 (later_arg p2 p1) (later_arg r2 r1)
                (later_arg e2 e1) jobs).
  { intros. destruct (jobs !! job_id) as [j|] eqn:Hj.
    - rewrite (update_job_status_present jobs _ _ _ _ _ _ Hj).
      rewrite (update_job_status_present jobs _ _ _ _ _ _ Hj).
      erewrite update_job_status_present by apply lookup_insert_eq.
      now rewrite insert_insert_eq, apply_update_twice.
    - repeat rewrite (update_job_status_missing jobs) by exact Hj. reflexivity. }
  split; [apply Hgen|].
  rewrite Hgen. now destruct p1, r1, e1.
Qed.

(** [X4] An update cannot clear a field: a job that has a result still has
    one after any update, and a job that has an error message still has one;
    with [None] as the argument the value is the same. *)
Theorem update_job_status_never_clears (jobs : gmap string job) (job_id status : string)
    (progress : option Z) (result error : option string) (j : job) :
  jobs !! job_id = Some j ->
  ∃ j', update_job_status job_id status progress result error jobs !! job_id = Some j' ∧
        (is_Some (job_result j) -> is_Some (job_result j')) ∧
        (is_Some (job_error j) -> is_Some (job_error j')) ∧
        job_progress j' = default (job_progress j) progress ∧
        job_status j' = status.
Proof.
  intros Hj. exists (apply_update status progress result error j).
  split; [now apply update_lookup|].
  rewrite apply_update_result, apply_update_error, apply_update_progress,
    apply_update_status.
  repeat split; intros H; [now destruct result | now destruct error].
Qed.

(** ** Submission *)

(** What [skip_spaces] does first: nothing, or it removes one character of
    white space, whatever follows. *)
Lemma skip_spaces_cases (from_end : bool) (l : list ascii) :
  skip_spaces from_end l = l ∨
  ∃ pre l', l = (pre ++ l')%list ∧ pre ≠ [] ∧
    ∀ y, skip_spaces from_end (pre ++ l' ++ y) = skip_spaces from_end (l' ++ y).
Proof.
  destruct l as [|a l1]; [now left|].
  destruct (space_1byte a) eqn:H1.
  { right. exists [a], l1. split; [reflexivity|]. split; [discriminate|].
    intros y. cbn. now rewrite H1. }
  destruct l1 as [|b l2]; [left; cbn; now rewrite H1|].
  destruct (if from_end then space_2bytes b a else space_2bytes a b) eqn:H2.
  { right. exists [a; b], l2. split; [reflexivity|]. split; [discriminate|].
    intros y. cbn. now rewrite H1, H2. }
  destruct l2 as [|c l3]; [left; cbn; now rewrite H1, H2|].
  destruct (if from_end then space_3bytes c b a else space_3bytes a b c) eqn:H3.
  { right. exists [a; b; c], l3. split; [reflexivity|]. split; [discriminate|].
    intros y. cbn. now rewrite H1, H2, H3. }
  left. cbn. now rewrite H1, H2, H3.
Qed.

Lemma skip_spaces_removed (from_end : bool) (pre l' : list ascii) :
  (∀ y, skip_spaces from_end (pre ++ l' ++ y) = skip_spaces from_end (l' ++ y)) ->
  skip_spaces from_end (pre ++ l') = skip_spaces from_end l'.
Proof. intros H. specialize (H []). now rewrite !app_nil_r in H. Qed.

Lemma skip_spaces_measure (from_end : bool) (Q : list ascii -> Prop) :
  (∀ l, skip_spaces from_end l = l -> Q l) ->
  (∀ pre l', pre ≠ [] ->
     skip_spaces from_end (pre ++ l') = skip_spaces from_end l' ->
     Q l' -> Q (pre ++ l')%list) ->
  ∀ l, Q l.
Proof.
  intros Hfixed Hremoved l.
  remember (length l) as n eqn:Hn. revert l Hn.
  induction n as [n IH] using lt_wf_ind. intros l ->.
  destruct (skip_spaces_cases from_end l) as [Hl | (pre & l' & -> & Hpre & Hskip)].
  - now apply Hfixed.
  - apply Hremoved; [exact Hpre | now apply skip_spaces_removed |].
    apply (IH (length l')); [|reflexivity].
    rewrite length_app. destruct pre; [done | cbn; lia].
Qed.

Lemma skip_spaces_idem (from_end : bool) (l : list ascii) :
  skip_spaces from_end (skip_spaces from_end l) = skip_spaces from_end l.
Proof.
  induction l as [l Hl | pre l' _ Hskip IH] using (skip_spaces_measure from_end).
  - now rewrite Hl.
  - now rewrite Hskip.
Qed.

Lemma skip_spaces_suffix (from_end : bool) (l : list ascii) :
  ∃ pre, l = (pre ++ skip_spaces from_end l)%list.
Proof.
  induction l as [l Hl | pre l' _ Hskip [pre' IH]] using (skip_spaces_measure from_end).
  - exists []. now rewrite Hl.
  - exists (pre ++ pre')%list. rewrite Hskip, <- app_assoc. now rewrite <- IH.
Qed.

Lemma skip_spaces_length (from_end : bool) (l : list ascii) :
  (length (skip_spaces from_end l) <= length l)%nat.
Proof.
  destruct (skip_spaces_suffix from_end l) as [pre Hpre].
  rewrite Hpre at 2. rewrite length_app. lia.
Qed.

(** A sequence that has no white space at its front has a front without. *)
Lemma skip_spaces_fixed_prefix (from_end : bool) (x y : list ascii) :
  skip_spaces from_end (x ++ y) = (x ++ y)%list -> skip_spaces from_end x = x.
Proof.
  intros Hfixed.
  destruct (skip_spaces_cases from_end x) as [Hx | (pre & x' & -> & Hpre & Hskip)];
    [exact Hx|].
  exfalso. rewrite <- app_assoc, Hskip in Hfixed.
  pose proof (skip_spaces_length from_end (x' ++ y)) as Hlen.
  rewrite Hfixed, !length_app in Hlen. destruct pre; [done | cbn in Hlen; lia].
Qed.

Lemma strip_trimmed (s : string) : trimmed (strip s).
Proof.
  unfold trimmed, strip, lstrip, rstrip.
  rewrite !list_ascii_of_string_of_list_ascii.
  set (R := rev (skip_spaces true (rev (list_ascii_of_string s)))).
  destruct (skip_spaces_suffix false R) as [pre Hpre].
  assert (Hend : skip_spaces true (rev (skip_spaces false R))
                 = rev (skip_spaces false R)).
  { apply (skip_spaces_fixed_prefix true _ (rev pre)).
    rewrite <- rev_app_distr, <- Hpre. unfold R. rewrite rev_involutive.
    apply skip_spaces_idem. }
  now rewrite Hend, rev_involutive, skip_spaces_idem.
Qed.

Lemma py_strip_trimmed (v : json) (s : string) : py_strip v = Ret s -> trimmed s.
Proof. destruct v; try discriminate. intros [= <-]. apply strip_trimmed. Qed.

Lemma or_None_Some (s t : string) : or_None s = Some t -> t = s ∧ s ≠ "".
Proof. destruct s; [discriminate|]. now intros [= <-]. Qed.

Lemma generate_validate_accepts (P : poster_module) (data : json) (params : job_params) :
  generate_validate P data = Ret (inr params) ->
  checked params ∧
  ∃ available_themes,
    get_available_themes P = Ret available_themes ∧ p_theme params ∈ available_themes.
Proof.
  unfold generate_validate. intros H.
  destruct data as [| | | | | |d]; try discriminate.
  cbn [py_get mbind outcome_bind] in H.
  destruct (py_strip (default (JStr "") (assoc_get "city" d))) as [city|] eqn:Hcity;
    [|discriminate].
  destruct (py_strip (default (JStr "") (assoc_get "country" d))) as [country|] eqn:Hcountry;
    [|discriminate].
  cbn [mbind outcome_bind] in H.
  destruct (bool_decide (city = "")) eqn:Hc; [cbn in H; discriminate|].
  destruct (bool_decide (country = "")) eqn:Hk; [cbn in H; discriminate|].
  apply bool_decide_eq_false_1 in Hc, Hk. cbn [orb] in H.
  destruct (py_strip (default (JStr "") (assoc_get "display_name" d)))
    as [display_name|] eqn:Hname; [|discriminate].
  cbn [fmap outcome_fmap mbind outcome_bind] in H.
  destruct (get_available_themes P) as [available_themes|]; [|discriminate].
  cbn [unhandled mbind outcome_bind] in H.
  destruct (theme_in _ available_themes) as [theme_name|] eqn:Htheme; [|discriminate].
  destruct (py_int _ _) as [distance|[]]; try discriminate.
  destruct (distance <? 1000) eqn:Hlo; [cbn in H; discriminate|].
  destruct (distance >? 50000) eqn:Hhi; [cbn in H; discriminate|].
  injection H as <-. split.
  - split; cbn.
    + eauto using py_strip_trimmed.
    + eauto using py_strip_trimmed.
    + lia.
    + intros s Hs. apply or_None_Some in Hs as [-> Hs]. eauto using py_strip_trimmed.
  - exists available_themes. split; [reflexivity|]. cbn.
    destruct (default (JStr "feature_based") _); try discriminate. cbn in Htheme.
    destruct (bool_decide _) eqn:Hin; [|discriminate].
    injection Htheme as <-. now apply bool_decide_eq_true_1 in Hin.
Qed.


(** [X6] The parameters of an accepted submission have passed every check:
    city and country are not empty and carry no white space at either end,
    the distance is an integer from 1000 to 50000, the display name is
    absent or a non-empty string without white space at either end, and the
    theme is one of the themes the collaborator lists. *)
Theorem accepted_params_are_checked (P : poster_module) (uuid4 : string)
    (thread_start : outcome exn unit) (data : json) (w w' : world) :
  generate P uuid4 thread_start data w = (Ret (jsonify_job_id uuid4), w') ->
  ∃ params available_themes,
    jobs w' !! uuid4 = Some (new_job params) ∧
    checked params ∧
    get_available_themes P = Ret available_themes ∧
    p_theme params ∈ available_themes.
Proof.
  unfold generate. intros H.
  destruct (generate_validate P data) as [[resp|params]|c] eqn:Hv.
  - apply generate_validate_rejects in Hv as [msg ->]. discriminate.
  - destruct thread_start as [[]|e]; [|discriminate]. injection H as <-.
    apply generate_validate_accepts in Hv as (Hchecked & themes & Hthemes & Hin).
    exists params, themes. split; [cbn; apply lookup_insert_eq|].
    split; [exact Hchecked|]. split; assumption.
  - discriminate.
Qed.

(** [X7] The defaults of a submission: a request that gives a city and a
    country that are not blank, and neither theme, distance nor display
    name, is accepted exactly when the collaborator lists the theme
    ['feature_based']; the job is then stored with the stripped city and
    country, that theme, the distance 10000 and no display name, and the
    answer is the job id when the thread starts. *)
Theorem generate_defaults (P : poster_module) (uuid4 : string)
    (thread_start : outcome exn unit) (d : list (string * json)) (w : world)
    (city country : string) (available_themes : list string) :
  assoc_get "city" d = Some (JStr city) ->
  assoc_get "country" d = Some (JStr country) ->
  strip city ≠ "" -> strip country ≠ "" ->
  assoc_get "theme" d = None ->
  assoc_get "distance" d = None ->
  assoc_get "display_name" d = None ->
  get_available_themes P = Ret available_themes ->
  generate P uuid4 thread_start (JDict d) w =
  if bool_decide ("feature_based" ∈ available_themes)
  then
    let params := JobParams (strip city) (strip country) "feature_based" 10000 None in
    let stored := create_job uuid4 params w in
    match thread_start with
    | Ret _ => (Ret (jsonify_job_id uuid4), start_thread uuid4 params stored)
    | Raise e => (Raise (exn_cls e), stored)
    end
  else (Ret (jsonify_error "Theme 'feature_based' not found" 400), w).
Proof.
  intros Hcity Hcountry Hc Hk Htheme Hdistance Hname Hthemes.
  rewrite (generate_text_fields P uuid4 thread_start d w (strip city) (strip country)
             "" available_themes); try assumption.
  - unfold field. rewrite Htheme, Hdistance. cbn.
    now destruct (bool_decide ("feature_based" ∈ available_themes)).
  - unfold field. now rewrite Hcity.
  - unfold field. now rewrite Hcountry.
  - unfold field. now rewrite Hname.
Qed.

(** [X8] The distance check, for a request that has passed the checks before
    it: the request is accepted (and, the thread starting, answered with
    the job id) exactly when [int(distance)] returns a number from 1000 to
    50000, and the job is stored with that number, not with the value sent
    (a float is truncated, a numeric string parsed). *)
Theorem distance_accepted_iff (P : poster_module) (uuid4 : string)
    (thread_start : outcome exn unit) (d : list (string * json)) (w : world)
    (city country display_name theme_name : string) (available_themes : list string) :
  py_strip (field d "city" (JStr "")) = Ret city ->
  py_strip (field d "country" (JStr "")) = Ret country ->
  py_strip (field d "display_name" (JStr "")) = Ret display_name ->
  get_available_themes P = Ret available_themes ->
  city ≠ "" -> country ≠ "" ->
  theme_in (field d "theme" (JStr "feature_based")) available_themes = Some theme_name ->
  ((generate P uuid4 (Ret tt) (JDict d) w).1 = Ret (jsonify_job_id uuid4)
   ↔ ∃ z, py_int python (field d "distance" (JInt 10000)) = Ret z ∧ 1000 <= z <= 50000) ∧
  (is_Some (jobs (generate P uuid4 thread_start (JDict d) w).2 !! uuid4)
   ↔ is_Some (jobs w !! uuid4)
     ∨ ∃ z, py_int python (field d "distance" (JInt 10000)) = Ret z ∧ 1000 <= z <= 50000) ∧
  (∀ z, py_int python (field d "distance" (JInt 10000)) = Ret z -> 1000 <= z <= 50000 ->
        jobs (generate P uuid4 thread_start (JDict d) w).2 !! uuid4
        = Some (new_job (JobParams city country theme_name z (or_None display_name)))).
Proof.
  intros Hcity Hcountry Hname Hthemes Hc Hk Htheme.
  pose proof (generate_text_fields P uuid4 (Ret tt) d w city country display_name
                available_themes Hcity Hcountry Hname Hthemes Hc Hk) as Hstart.
  pose proof (generate_text_fields P uuid4 thread_start d w city country display_name
                available_themes Hcity Hcountry Hname Hthemes Hc Hk) as Hgen.
  rewrite Htheme in Hstart, Hgen. rewrite Hstart, Hgen. clear Hstart Hgen.
  destruct (py_int _ _) as [distance|c].
  - destruct ((1000 <=? distance) && (distance <=? 50000)) eqn:Hrange.
    + assert (1000 <= distance <= 50000) by lia.
      split; [|split].
      * split; [eauto|reflexivity].
      * split; [eauto|]. intros _. destruct thread_start; cbn;
          rewrite lookup_insert_eq; eauto.
      * intros z [= <-] _. destruct thread_start; cbn; apply lookup_insert_eq.
    + split; [|split].
      * split; [discriminate|]. intros (z & [= <-] & Hz). lia.
      * cbn. split; [now left|]. intros [Hj | (z & [= <-] & Hz)]; [exact Hj | lia].
      * intros z [= <-] Hz. lia.
  - split; [|split].
    + split; [destruct c; discriminate|]. now intros (z & Hz & _).
    + split.
      * intros Hj. left. destruct c; exact Hj.
      * intros [Hj | (z & Hz & _)]; [destruct c; exact Hj | discriminate].
    + discriminate.
Qed.

Lemma json_of_option_inj (a b : option string) :
  json_of_option a = json_of_option b -> a = b.
Proof. destruct a, b; cbn; congruence. Qed.

(** [X9] The answer of a status query carries the whole record and nothing
    else decides it: two tables give the same answer for an id only if
    they agree on that id (both without the job, or both with the same
    status, progress, result, error and parameters). The 404 answer is
    never the answer for a job that exists. *)
Theorem get_status_tells_record (job_id : string) (jobs1 jobs2 : gmap string job) :
  get_status job_id jobs1 = get_status job_id jobs2 ->
  jobs1 !! job_id = jobs2 !! job_id.
Proof.
  unfold get_status.
  destruct (jobs1 !! job_id) as [[s1 p1 r1 e1 [c1 k1 t1 d1 n1]]|],
           (jobs2 !! job_id) as [[s2 p2 r2 e2 [c2 k2 t2 d2 n2]]|];
    try discriminate; [|reflexivity].
  unfold jsonify_job. cbn. intros H.
  injection H as -> -> Hr He -> -> -> -> Hn.
  apply json_of_option_inj in Hr, He, Hn. congruence.
Qed.

(** ** The generation worker *)

(** [X10] A worker writes to the record of its own job and to nothing else
    in the job table: whatever the collaborator does, [run_generation]
    leaves the set of job ids, the record of every other job and the
    threads as they were. *)
Theorem run_generation_touches_own_job (P : poster_module)
    (job_id city country theme_name : string) (distance : Z)
    (display_name : option string) (w : world) :
  let w' := (run_generation P job_id city country theme_name distance display_name w).2 in
  threads w' = threads w ∧
  dom (jobs w') = dom (jobs w) ∧
  ∀ other, other ≠ job_id → jobs w' !! other = jobs w !! other.
Proof. apply run_generation_touches_only. Qed.

(** [X11] A worker whose job id is not in the table records nothing: every
    update is dropped, so the table after [run_generation] is the table
    before it, whether the collaborator returns or raises. *)
Theorem run_generation_absent_job (P : poster_module)
    (job_id city country theme_name : string) (distance : Z)
    (display_name : option string) (w : world) :
  jobs w !! job_id = None ->
  jobs (run_generation P job_id city country theme_name distance display_name w).2
  = jobs w.
Proof.
  intros Hnone.
  destruct (run_generation_touches_only P job_id city country theme_name distance
              display_name w) as (_ & Hdom & Hother).
  apply map_eq. intros k. destruct (decide (k = job_id)) as [->|Hne]; [|now apply Hother].
  rewrite Hnone. apply not_elem_of_dom. rewrite Hdom. now apply not_elem_of_dom.
Qed.

(** ** Runs of the application *)

(** The thread of a job, or none when the thread could not be started. *)
Lemma job_thread (ls : list label) (job_id : string) (j : job) :
  NoDup (uuids ls) ->
  jobs (world_after ls) !! job_id = Some j ->
  (∃ i t, threads (world_after ls) !! i = Some t ∧ w_job_id t = job_id ∧
          job_at (w_at t) j ∧ job_params_of j = params_of t) ∨
  ((job_id ∉ w_job_id <$> threads (world_after ls)) ∧ j = new_job (job_params_of j)).
Proof.
  intros Hnd Hj. destruct (run_invariant ls Hnd) as (Hcons & _ & _).
  destruct (decide (job_id ∈ w_job_id <$> threads (world_after ls))) as [Hin | Hout].
  - left. apply list_elem_of_fmap in Hin as (t & -> & Ht).
    apply list_elem_of_lookup in Ht as (i & Hi).
    destruct (threads_tracked _ Hcons i t Hi) as (j0 & Hj0 & Hat & Hpar).
    assert (j0 = j) as -> by congruence. eauto 8.
  - right. split; [exact Hout|].
    now destruct (jobs_owned _ Hcons job_id j Hj) as [Hin | Horphan].
Qed.

(** What the record of a job shows is what some position of a worker
    shows. *)
Lemma job_shape (ls : list label) (job_id : string) (j : job) :
  NoDup (uuids ls) ->
  jobs (world_after ls) !! job_id = Some j ->
  ∃ pos, job_at pos j.
Proof.
  intros Hnd Hj.
  destruct (job_thread ls job_id j Hnd Hj) as [(i & t & _ & _ & Hat & _) | (_ & ->)].
  - eauto.
  - exists Spawned. now repeat split.
Qed.

Lemma job_at_progress (pos : position) (j j' : job) :
  job_at pos j -> advances j j' ∨ fails j j' -> job_progress j <= job_progress j'.
Proof.
  intros Hat [Hadv | (_ & msg & ->)].
  - unfold advances in Hadv.
    destruct pos as [| | | | |[]|]; cbn in Hat;
      try (destruct Hat as (Hs & Hp & _); rewrite Hs in Hadv; cbn in Hadv;
           first [discriminate | injection Hadv as _ <-; lia]).
    destruct Hat as (Hin & _). unfold in_progress in Hin.
    rewrite !elem_of_cons, elem_of_nil in Hin.
    destruct Hin as [Hin|[Hin|[Hin|[Hin|[]]]]]; injection Hin as Hs Hp;
      rewrite Hs in Hadv; cbn in Hadv; injection Hadv as _ <-; lia.
  - rewrite apply_update_progress. cbn. lia.
Qed.



(** [X12] What any client can see of a job, at any moment of any run: the
    status is one of the seven, the progress lies between 0 and 100, it is
    0 exactly for a pending job and 100 exactly for a complete one, a
    result is present exactly when the job is complete, and an error
    message exactly when the status is ['error']. *)
Theorem record_is_well_formed (ls : list label) (job_id : string) (j : job) :
  NoDup (uuids ls) ->
  jobs (world_after ls) !! job_id = Some j ->
  job_status j ∈ statuses ∧
  0 <= job_progress j <= 100 ∧
  (job_progress j = 0 ↔ job_status j = "pending") ∧
  (job_progress j = 100 ↔ job_status j = "complete") ∧
  (is_Some (job_result j) ↔ job_status j = "complete") ∧
  (is_Some (job_error j) ↔ job_status j = "error").
Proof.
  intros Hnd Hj. destruct (job_shape ls job_id j Hnd Hj) as (pos & Hat).
  assert (Hnone : ∀ A, ¬ is_Some (@None A)) by (intros A [x Hx]; discriminate).
  destruct pos as [| | | | |[]|]; cbn in Hat.
  1-6: destruct Hat as (Hs & Hp & Hr & He); rewrite Hs, Hp, Hr, He;
       (split; [unfold statuses; settle_member|]);
       repeat split; try lia; try discriminate; try (intros H; now apply Hnone in H);
       eauto.
  - destruct Hat as (Hs & Hp & Hr & He). rewrite Hs, Hr, He.
    apply phase_progress_bounds in Hp as Hp'.
    rewrite !elem_of_cons, elem_of_nil in Hp.
    split; [unfold statuses; settle_member|].
    repeat split; try lia; try discriminate; try (intros H; now apply Hnone in H); eauto.
  - destruct Hat as (Hin & Hr & He). rewrite Hr, He. unfold in_progress in Hin.
    rewrite !elem_of_cons, elem_of_nil in Hin.
    destruct Hin as [Hin|[Hin|[Hin|[Hin|[]]]]]; injection Hin as Hs Hp; rewrite Hs, Hp;
      (split; [unfold statuses; settle_member|]);
      repeat split; try lia; try discriminate; try (intros H; now apply Hnone in H).
Qed.

(** [X13] The progress of a job never goes down: along any run, a later
    look at a job shows a progress at least as high as an earlier one. *)
Theorem progress_never_decreases (ls ls' : list label) (job_id : string) (j j' : job) :
  NoDup (uuids (ls ++ ls')) ->
  jobs (world_after ls) !! job_id = Some j ->
  jobs (world_after (ls ++ ls')) !! job_id = Some j' ->
  job_progress j <= job_progress j'.
Proof.
  revert j'. induction ls' as [|l ls' IH] using rev_ind; intros j' Hnd Hj Hj'.
  - rewrite app_nil_r in Hj'. assert (j' = j) as -> by congruence. lia.
  - rewrite app_assoc in Hnd, Hj'.
    pose proof (NoDup_uuids_prefix _ _ Hnd) as Hnd0.
    destruct (job_stays ls ls' job_id j Hnd0 Hj) as (j1 & Hj1 & _).
    specialize (IH j1 Hnd0 Hj Hj1).
    destruct (run_step (ls ++ ls') l job_id j1 Hnd Hj1) as (j2 & Hj2 & _ & Hmove).
    assert (j2 = j') as -> by congruence.
    destruct (job_shape _ job_id j1 Hnd0 Hj1) as (pos & Hat).
    destruct Hmove as [->|Hmove]; [exact IH|].
    pose proof (job_at_progress _ j1 j' Hat Hmove). lia.
Qed.






(** [X16] The global [poster.THEME] is written at one place only, by any
    thread: a step changes it exactly when it runs a thread that stands
    before the loading of its theme and [load_theme] returns, and then the
    global holds that thread's theme, whatever theme another thread that
    is about to render had loaded. Requests and every other step of a
    worker leave it as it is. *)
Theorem THEME_written_by_any_loader (l : label) (w : world) :
  (∃ i P t coords theme,
     l = Run i P ∧ threads w !! i = Some t ∧ w_at t = LoadingTheme coords ∧
     load_theme P (w_theme_name t) = Ret theme ∧
     THEME (step l w).2 = Some theme)
  ∨ THEME (step l w).2 = THEME w.
Proof.
  destruct l as [P u started data|q|i P].
  - right. rewrite step_Submit_world.
    destruct (generate_world P u started data w)
      as [-> | (params & _ & [-> | (e & _ & ->)])]; reflexivity.
  - right. reflexivity.
  - cbn [step snd]. unfold run_thread.
    destruct (threads w !! i) as [t|] eqn:Ht; [|now right].
    unfold worker_step, resume.
    destruct (w_at t) as [| |coords|coords|coords output_file|how|e] eqn:Hpos;
      unfold_worker; cbn; try (now right).
    + destruct (get_coordinates P _ _) as [c|e]; cbn; [now right|].
      destruct (is_Exception e); now right.
    + destruct (load_theme P _) as [theme|e] eqn:Hload; cbn.
      * left. exists i, P, t, coords, theme. repeat split; assumption.
      * destruct (is_Exception e); now right.
    + destruct (generate_output_filename P _ _) as [c|e]; cbn; [now right|].
      destruct (is_Exception e); now right.
    + destruct (create_poster P _ _ _ _ _ _) as [c|e]; cbn; [now right|].
      destruct (is_Exception e); now right.
Qed.

(** ** The lock *)

(** [X17] Mutual exclusion: however the threads are scheduled, at most one
    of them is inside a [with jobs_lock:] block, and that one holds the
    lock. *)
Theorem jobs_lock_excludes (schedule : list nat) (s0 : machine) (k1 k2 : nat)
    (c1 c2 : call_state) :
  jobs_lock s0 = None ->
  (∀ c, c ∈ pool s0 -> unstarted c = true) ->
  pool (run_schedule schedule s0) !! k1 = Some c1 -> outside c1 = false ->
  pool (run_schedule schedule s0) !! k2 = Some c2 -> outside c2 = false ->
  k1 = k2 ∧ jobs_lock (run_schedule schedule s0) = Some k1.
Proof.
  intros Hl Hall Hk1 Hin1 Hk2 Hin2.
  pose proof (run_schedule_inv s0 schedule s0 (initial_lock_inv s0 Hl Hall)) as Hinv.
  destruct (inside_holds_lock _ _ k1 c1 Hinv Hk1 Hin1) as (Hl1 & _).
  destruct (inside_holds_lock _ _ k2 c2 Hinv Hk2 Hin2) as (Hl2 & _).
  split; [congruence | exact Hl1].
Qed.

(** [X18] The lookups made under the lock never miss: a thread that is at
    one of the field writes of [update_job_status] (lines 33-39) finds its
    job in the table, whatever the other threads do, so [jobs[job_id]]
    raises no [KeyError] there; the copy of line 174 never raises; and a
    status query always ends with a response, never with an exception. *)
Theorem locked_lookups_never_miss (schedule : list nat) (s0 : machine) (k : nat)
    (c : call_state) :
  jobs_lock s0 = None ->
  (∀ c, c ∈ pool s0 -> unstarted c = true) ->
  pool (run_schedule schedule s0) !! k = Some c ->
  match c with
  | Updating job_id _ _ _ _ (U_write _) =>
      is_Some (table (run_schedule schedule s0) !! job_id)
  | Reading job_id R_copy => is_Some (table (run_schedule schedule s0) !! job_id)
  | Reading _ R_raise => False
  | Reading _ (R_done r) => ∃ resp, r = Ret resp
  | _ => True
  end.
Proof.
  intros Hl Hall Hk.
  pose proof (run_schedule_inv s0 schedule s0 (initial_lock_inv s0 Hl Hall)) as Hinv.
  destruct c as [job_id status progress result error []|job_id params []|job_id []];
    try exact I.
  - destruct (inside_holds_lock _ _ k _ Hinv Hk eq_refl)
      as (_ & A & _ & (_ & j & _ & ->) & _).
    rewrite lookup_insert_eq. eauto.
  - destruct (inside_holds_lock _ _ k _ Hinv Hk eq_refl) as (_ & A & _ & (-> & Hj) & _).
    exact Hj.
  - now destruct (inside_holds_lock _ _ k _ Hinv Hk eq_refl) as (_ & A & _ & [] & _).
  - destruct Hinv as (_ & Hreaders & _).
    destruct (Hreaders k _ Hk) as (T & _ & ->). eauto.
Qed.

(** [X19] No update is lost. Whenever the lock is free, the table is what
    the blocks of exactly the threads that have run their block give when
    each is run once, as a whole, in some order ([update_job_status] as a
    function, the insertion of a job, nothing for a query), from the table
    at the start. When every call has run its block, that order names
    every thread of the pool once. *)
Theorem no_update_is_lost (schedule : list nat) (s0 : machine) :
  jobs_lock s0 = None ->
  (∀ c, c ∈ pool s0 -> unstarted c = true) ->
  jobs_lock (run_schedule schedule s0) = None ->
  ∃ order,
    NoDup order ∧
    (∀ k, k ∈ order ↔
          ∃ c, pool (run_schedule schedule s0) !! k = Some c ∧ left_block c = true) ∧
    table (run_schedule schedule s0) = replay (pool s0) order (table s0) ∧
    ((∀ c, c ∈ pool (run_schedule schedule s0) → left_block c = true) →
     order ≡ₚ seq 0 (length (pool s0))).
Proof.
  intros Hl Hall Hfree.
  destruct (run_schedule_lossless s0 schedule s0 (initial_lossless s0 Hl Hall))
    as (Hlen & _ & A & (order & Hnd & Hdone & ->) & Hlock).
  rewrite Hfree in Hlock. destruct Hlock as (Htbl & _).
  exists order. split; [exact Hnd|]. split; [exact Hdone|]. split; [exact Htbl|].
  intros Hleft. apply NoDup_Permutation; [exact Hnd | apply NoDup_seq |].
  intros k. rewrite Hdone, elem_of_seq, <- Hlen. split.
  - intros (c & Hk & _). apply lookup_lt_Some in Hk. lia.
  - intros (_ & Hk). cbn in Hk. apply lookup_lt_is_Some_2 in Hk as [c Hk].
    exists c. split; [exact Hk|]. apply Hleft. eapply list_elem_of_lookup_2, Hk.
Qed.

Lemma sum_list_insert (l : list nat) (k n n' : nat) :
  l !! k = Some n -> (sum_list (<[k := n']> l) + n = sum_list l + n')%nat.
Proof.
  revert k. induction l as [|m l IH]; intros [|k] Hk; try discriminate.
  - injection Hk as ->. cbn. lia.
  - cbn. rewrite <- !Nat.add_assoc. f_equal. apply IH. exact Hk.
Qed.

Lemma work_moved (s : machine) (k : nat) (c c' : call_state) tbl lock :
  pool s !! k = Some c ->
  (work (Machine tbl lock (<[k := c']> (pool s))) + remaining c
   = work s + remaining c')%nat.
Proof.
  intros Hk. unfold work. cbn [pool]. rewrite list_fmap_insert.
  apply sum_list_insert. now rewrite list_lookup_fmap, Hk.
Qed.

Lemma work_decreases (s : machine) (k : nat) (c c' : call_state) tbl lock :
  pool s !! k = Some c -> (remaining c' < remaining c)%nat ->
  (work (Machine tbl lock (<[k := c']> (pool s))) < work s)%nat.
Proof. intros Hk Hlt. pose proof (work_moved s k c c' tbl lock Hk). lia. Qed.

(** A thread inside its block is never held up. *)
Lemma holder_runs (s : machine) (k : nat) (c : call_state) :
  pool s !! k = Some c -> outside c = false ->
  (work (thread_step k s) < work s)%nat.
Proof.
  intros Hk Hin. unfold thread_step. rewrite Hk.
  destruct c as [job_id status progress result error []|job_id params []|job_id []];
    try discriminate; unfold release, moved;
    repeat match goal with
    | |- context [decide ?P] => destruct (decide P)
    | |- context [table s !! ?i] => destruct (table s !! i)
    end;
    apply (work_decreases s k _ _ _ _ Hk); cbn; lia.
Qed.

(** With the lock free, a thread outside its block that has not returned
    runs its next statement. *)
Lemma free_runs (s : machine) (k : nat) (c : call_state) :
  jobs_lock s = None -> pool s !! k = Some c ->
  outside c = true -> returned c = false ->
  (work (thread_step k s) < work s)%nat.
Proof.
  intros Hl Hk Hout Hret. unfold thread_step. rewrite Hk.
  destruct c as [job_id status progress result error []|job_id params []|job_id []];
    try discriminate; unfold acquire, moved; rewrite ?Hl;
    apply (work_decreases s k _ _ _ _ Hk); cbn; lia.
Qed.

Lemma thread_step_work (s : machine) (k : nat) : (work (thread_step k s) <= work s)%nat.
Proof.
  destruct (pool s !! k) as [c|] eqn:Hk; [|unfold thread_step; now rewrite Hk].
  destruct (outside c) eqn:Hout; [|pose proof (holder_runs s k c Hk Hout); lia].
  destruct (returned c) eqn:Hret.
  - unfold thread_step. rewrite Hk.
    destruct c as [job_id status progress result error []|job_id params []|job_id []];
      try discriminate; reflexivity.
  - destruct (jobs_lock s) as [h|] eqn:Hl;
      [|pose proof (free_runs s k c Hl Hk Hout Hret); lia].
    unfold thread_step. rewrite Hk.
    destruct c as [job_id status progress result error []|job_id params []|job_id []];
      try discriminate; unfold acquire; rewrite ?Hl; try reflexivity.
    unfold moved. apply Nat.lt_le_incl, (work_decreases s k _ _ _ _ Hk). cbn. lia.
Qed.

(** Some thread can always run: the holder of the lock when it is taken,
    any thread that has not returned when it is free. *)
Lemma some_thread_runs s0 s c :
  lock_inv s0 s -> c ∈ pool s -> returned c = false ->
  ∃ k, (work (thread_step k s) < work s)%nat.
Proof.
  intros Hinv Hc Hret. apply list_elem_of_lookup in Hc as (k & Hk).
  destruct (jobs_lock s) as [h|] eqn:Hl.
  - destruct Hinv as (_ & _ & A & _ & Hlock). rewrite Hl in Hlock.
    destruct Hlock as ((ch & Hh & Hview) & _).
    exists h. apply (holder_runs s h ch Hh). now apply holder_view_inside in Hview.
  - exists k. apply (free_runs s k c Hl Hk); [|exact Hret].
    destruct Hinv as (_ & _ & A & _ & Hlock). rewrite Hl in Hlock.
    destruct Hlock as (_ & Hall). now apply (Hall k).
Qed.

Lemma can_finish s0 (n : nat) (s : machine) :
  lock_inv s0 s -> (work s <= n)%nat ->
  ∃ more, ∀ c, c ∈ pool (run_schedule more s) → returned c = true.
Proof.
  revert s. induction n as [|n IH]; intros s Hinv Hn.
  - exists []. intros c Hc. cbn in Hc.
    destruct (returned c) eqn:Hret; [reflexivity|].
    destruct (some_thread_runs s0 s c Hinv Hc Hret) as (k & Hk). lia.
  - destruct (decide (Forall (fun c => returned c = true) (pool s))) as [Hall|Hnot].
    + exists []. intros c Hc. cbn in Hc. rewrite Forall_forall in Hall. now apply Hall.
    + apply not_Forall_Exists in Hnot; [|intros c; apply _].
      apply Exists_exists in Hnot as (c & Hc & Hret).
      apply not_true_is_false in Hret.
      destruct (some_thread_runs s0 s c Hinv Hc Hret) as (k & Hk).
      destruct (IH (thread_step k s)) as (more & Hmore);
        [now apply thread_step_inv | lia |].
      exists (k :: more). exact Hmore.
Qed.

(** [X20] The lock never deadlocks. In every state that a schedule can
    reach, a statement never adds work; as long as some call has not
    returned, some thread can run a statement; and the run can be
    continued so that every call returns. *)
Theorem jobs_lock_never_deadlocks (schedule : list nat) (s0 : machine) :
  jobs_lock s0 = None ->
  (∀ c, c ∈ pool s0 -> unstarted c = true) ->
  (∀ k, (work (run_schedule (schedule ++ [k]) s0) <= work (run_schedule schedule s0))%nat) ∧
  (∀ c, c ∈ pool (run_schedule schedule s0) → returned c = false →
        ∃ k, (work (run_schedule (schedule ++ [k]) s0)
              < work (run_schedule schedule s0))%nat) ∧
  ∃ more, ∀ c, c ∈ pool (run_schedule (schedule ++ more) s0) → returned c = true.
Proof.
  intros Hl Hall.
  pose proof (run_schedule_inv s0 schedule s0 (initial_lock_inv s0 Hl Hall)) as Hinv.
  assert (Happ : ∀ more, run_schedule (schedule ++ more) s0
                         = run_schedule more (run_schedule schedule s0))
    by (intros more; apply foldl_app).
  split; [|split].
  - intros k. rewrite Happ. apply thread_step_work.
  - intros c Hc Hret. destruct (some_thread_runs s0 _ c Hinv Hc Hret) as (k & Hk).
    exists k. now rewrite Happ.
  - destruct (can_finish s0 _ _ Hinv (le_n _)) as (more & Hmore).
    exists more. now rewrite Happ.
Qed.

(** ** The result and the request body *)

Lemma basename_no_slash (p : string) : has_slash (basename p) = false.
Proof.
  induction p as [|c p IH]; [reflexivity|]. cbn [basename].
  destruct (has_slash p) eqn:Hp; [exact IH|].
  destruct (is_slash c) eqn:Hc; [exact Hp|]. cbn. now rewrite Hc, Hp.
Qed.

(** [X21] The result of a job is a plain file name: whatever path the
    collaborator computes for the poster, the name stored in the record, which
    the client uses to fetch the poster, contains no slash. *)
Theorem result_is_a_file_name (ls : list label) (job_id filename : string) (j : job) :
  NoDup (uuids ls) ->
  jobs (world_after ls) !! job_id = Some j ->
  job_result j = Some filename ->
  has_slash filename = false ∧ basename filename = filename.
Proof.
  intros Hnd Hj Hr.
  destruct (job_shape ls job_id j Hnd Hj) as (pos & Hat).
  assert (Hname : ∃ output_file, filename = basename output_file).
  { destruct pos as [| | | | |[output_file|e]|]; cbn in Hat;
      try (destruct Hat as (_ & _ & Hr' & _); congruence).
    - destruct Hat as (_ & _ & Hr' & _). exists output_file. congruence.
    - destruct Hat as (_ & Hr' & _). congruence. }
  destruct Hname as (output_file & ->).
  pose proof (basename_no_slash output_file) as Hno. split; [exact Hno|].
  destruct (basename output_file) as [|c p]; [reflexivity|].
  cbn in Hno. apply orb_false_elim in Hno as (Hc & Hp). cbn. now rewrite Hp, Hc.
Qed.

(** [X22] The handler does no type check: a body that is not a JSON object,
    or a city or country that is present and not a string, makes [.get] or
    [.strip] raise [AttributeError], which nothing catches; the request ends
    in an unhandled exception, not in a 400, and the state is unchanged. *)
Theorem non_text_field_is_unhandled (P : poster_module) (uuid4 : string)
    (thread_start : outcome exn unit) (data : json) (w : world) :
  match data with
  | JDict d =>
      is_text (field d "city" (JStr "")) = false ∨
      is_text (field d "country" (JStr "")) = false
  | _ => True
  end ->
  generate P uuid4 thread_start data w = (Raise AttributeError, w).
Proof.
  unfold generate, generate_validate, field.
  destruct data as [| | | | | |d]; try reflexivity. cbn [py_get mbind outcome_bind].
  intros [H|H].
  - now destruct (default (JStr "") (assoc_get "city" d)).
  - destruct (default (JStr "") (assoc_get "country" d)); try discriminate;
      now destruct (default (JStr "") (assoc_get "city" d)).
Qed.

(** [X23] When the request body is a JSON object whose city and country
    fields are each absent or a string, and one of the two is missing,
    empty or blank (nothing but white space, of the ASCII range or not),
    the handler answers 400 with the message "City and country are
    required" and leaves the state as it was: no job record, no thread. *)
Theorem blank_city_or_country_rejected (P : poster_module) (uuid4 : string)
    (thread_start : outcome exn unit) (d : list (string * json)) (w : world)
    (city country : string) :
  py_strip (field d "city" (JStr "")) = Ret city ->
  py_strip (field d "country" (JStr "")) = Ret country ->
  city = "" ∨ country = "" ->
  generate P uuid4 thread_start (JDict d) w
  = (Ret (jsonify_error "City and country are required" 400), w).
Proof.
  intros Hcity Hcountry Hblank.
  unfold generate, generate_validate, py_get. fold (field d "city" (JStr "")).
  fold (field d "country" (JStr "")).
  cbn [mbind outcome_bind]. rewrite Hcity, Hcountry. cbn [mbind outcome_bind].
  destruct Hblank as [-> | ->]; [reflexivity|].
  now destruct (bool_decide (city = "")).
Qed.

End Handlers.

(** * Witnesses and examples *)

Lemma status_follows_sequence_witness :
  let ls := [Submit poster_ok "job-1" (Ret tt) (JDict paris_request)] in
  let l := Run 0 poster_ok in
  let j' := Job "geocoding" 10 None None paris in
  NoDup (uuids cpython (ls ++ [l])) ∧
  jobs (world_after cpython (ls ++ [l])) !! "job-1" = Some j' ∧
  match jobs (world_after cpython ls) !! "job-1" with
  | None => job_status j' = "pending" ∧ job_progress j' = 0
  | Some j =>
      j' = j ∨
      (permitted j j' ∧ (rank (job_status j) < rank (job_status j'))%nat)
  end.
Proof.
  intros ls l j'.
  assert (Hnd : NoDup (uuids cpython (ls ++ [l]))) by (vm_compute; apply NoDup_singleton).
  assert (Hj : jobs (world_after cpython (ls ++ [l])) !! "job-1" = Some j')
    by (vm_compute; reflexivity).
  split; [exact Hnd|]. split; [exact Hj|].
  exact (status_follows_sequence cpython ls l "job-1" j' Hnd Hj).
Defined.



(** When the thread cannot be started, the record is in the table all the
    same: the insertion comes first. The client gets no job id, and the
    job stays pending. *)
Example thread_start_failure_leaves_record :
  let submit := Submit poster_ok "job-1" start_fails (JDict paris_request) in
  responses cpython [submit; Run 0 poster_ok] = [Raise OtherException] ∧
  threads (world_after cpython [submit; Run 0 poster_ok]) = [] ∧
  jobs (world_after cpython [submit; Run 0 poster_ok]) !! "job-1"
  = Some (Job "pending" 0 None None paris).
Proof. repeat split; vm_compute; reflexivity. Qed.



Lemma completed_job_has_result_witness :
  jobs one_job !! "job-1" = Some (new_job paris) ∧
  generate_output_filename poster_ok (filename_city_of None "Paris") "noir"
  = Ret "posters/Paris_noir.png" ∧
  names_file "posters/Paris_noir.png" = true ∧
  ∃ w' j',
    run_generation poster_ok "job-1" "Paris" "France" "noir" 10000 None one_job
    = (Ret tt, w') ∧
    jobs w' !! "job-1" = Some j' ∧
    job_status j' = "complete" ∧
    job_progress j' = 100 ∧
    job_result j' = Some (basename "posters/Paris_noir.png") ∧
    basename "posters/Paris_noir.png" ≠ "".
Proof.
  assert (Hj : jobs one_job !! "job-1" = Some (new_job paris)) by reflexivity.
  split; [exact Hj|]. split; [reflexivity|]. split; [reflexivity|].
  destruct (completed_job_has_result cpython poster_ok "job-1" "Paris" "France" "noir"
              10000 None one_job (new_job paris) (JList [JInt 48; JInt 2]) (JDict [])
              "posters/Paris_noir.png" Hj eq_refl eq_refl eq_refl eq_refl eq_refl)
    as (w' & j' & Hrun & Hj' & Hstatus & Hprogress & Hresult & Hname & _).
  exists w', j'. repeat split; assumption.
Defined.

Lemma blank_city_or_country_rejected_witness :
  py_strip (field blank_city_request "city" (JStr "")) = Ret "" ∧
  py_strip (field blank_city_request "country" (JStr "")) = Ret "France" ∧
  generate cpython poster_ok "job-1" (Ret tt) (JDict blank_city_request) initial_world
  = (Ret (jsonify_error "City and country are required" 400), initial_world).
Proof.
  split; [reflexivity|]. split; [reflexivity|].
  exact (blank_city_or_country_rejected cpython poster_ok "job-1" (Ret tt)
           blank_city_request initial_world "" "France" eq_refl eq_refl
           (or_introl eq_refl)).
Defined.

(** [C7] as stated fails: a request with an unknown theme id and an empty
    city is turned down by the check of city and country, which comes first,
    and the message of that response does not contain the theme id. *)
Lemma unknown_theme_empty_city_counterexample :
  theme_in (JStr "neon") ["noir"] = None ∧
  generate cpython poster_ok "job-1" (Ret tt)
    (JDict [("city", JStr ""); ("country", JStr "France"); ("theme", JStr "neon")])
    initial_world
  = (Ret (jsonify_error "City and country are required" 400), initial_world) ∧
  contains "neon" "City and country are required" = false.
Proof. repeat split. Qed.

Lemma unknown_theme_rejected_witness :
  py_strip (field [("city", JStr "Paris"); ("country", JStr "France");
                   ("theme", JStr "neon")] "city" (JStr "")) = Ret "Paris" ∧
  theme_in (JStr "neon") ["noir"] = None ∧
  generate cpython poster_ok "job-1" (Ret tt)
    (JDict [("city", JStr "Paris"); ("country", JStr "France"); ("theme", JStr "neon")])
    initial_world
  = (Ret (jsonify_error "Theme 'neon' not found" 400), initial_world) ∧
  contains "neon" "Theme 'neon' not found" = true.
Proof.
  split; [reflexivity|]. split; [reflexivity|].
  exact (unknown_theme_rejected cpython poster_ok "job-1" (Ret tt)
           [("city", JStr "Paris"); ("country", JStr "France"); ("theme", JStr "neon")]
           initial_world "Paris" "France" "" ["noir"]
           eq_refl eq_refl eq_refl eq_refl
           ltac:(discriminate) ltac:(discriminate) eq_refl).
Defined.

Lemma update_job_status_absent_witness :
  (∅ : gmap string job) !! "no-such-job" = None ∧
  update_job_status "no-such-job" "complete" (Some 100) (Some "x.png") None ∅ = ∅.
Proof.
  split; [reflexivity|].
  exact (update_job_status_absent ∅ "no-such-job" "complete" (Some 100) (Some "x.png")
           None eq_refl).
Defined.


Lemma update_keeps_unnamed_fields_witness :
  jobs one_job !! "job-1" = Some (new_job paris) ∧
  ∃ j', update_job_status "job-1" "error" None None (Some "boom") (jobs one_job) !! "job-1"
        = Some j' ∧
        job_progress j' = 0 ∧ job_result j' = None ∧ job_params_of j' = paris.
Proof.
  assert (Hj : jobs one_job !! "job-1" = Some (new_job paris)) by reflexivity.
  split; [exact Hj|].
  destruct (update_keeps_unnamed_fields cpython (jobs one_job) "job-1" "error" None None
              (Some "boom") (new_job paris) Hj)
    as [(j' & Hj' & Hprogress & Hresult & _ & Hparams) _].
  exists j'. split; [exact Hj'|].
  split; [exact (Hprogress eq_refl)|]. split; [exact (Hresult eq_refl)|]. exact Hparams.
Defined.

(** The distance check on the boundary values and around them. The unit
    separator U+001F is white space for [str.strip()], not for [int()]. *)
Example distance_bounds :
  let submit distance :=
    (generate cpython poster_ok "job-1" (Ret tt)
       (JDict (paris_request ++ [("distance", distance)])) initial_world).1 in
  submit (JInt 1000) = Ret (jsonify_job_id "job-1") ∧
  submit (JInt 50000) = Ret (jsonify_job_id "job-1") ∧
  submit (JInt 500)
  = Ret (jsonify_error "Distance must be between 1000 and 50000 meters" 400) ∧
  submit (JInt 60000)
  = Ret (jsonify_error "Distance must be between 1000 and 50000 meters" 400) ∧
  submit (JStr "far") = Ret (jsonify_error "Invalid distance value" 400) ∧
  submit (JStr " 12_000 ") = Ret (jsonify_job_id "job-1") ∧
  submit (JStr (String "031" "12000")) = Ret (jsonify_error "Invalid distance value" 400) ∧
  submit (JStr "12__000") = Ret (jsonify_error "Invalid distance value" 400) ∧
  submit (JFloat (FFinite (Qmake 25001 2))) = Ret (jsonify_job_id "job-1") ∧
  submit (JFloat FNan) = Ret (jsonify_error "Invalid distance value" 400) ∧
  submit JNull = Raise TypeError ∧
  submit (JList []) = Raise TypeError ∧
  submit (JFloat (FInf false)) = Raise OverflowError.
Proof. repeat split. Qed.

(** Without a distance in the body, the job is created with 10000. *)
Example distance_default :
  generate_validate cpython poster_ok (JDict paris_request) = Ret (inr paris) ∧
  p_distance paris = 10000.
Proof. split; reflexivity. Qed.

(** ** Instances of the further properties *)


Lemma update_and_query_unstarted :
  ∀ c, c ∈ pool update_and_query -> unstarted c = true.
Proof.
  intros c Hc. cbn in Hc.
  apply elem_of_cons in Hc as [-> | Hc]; [reflexivity|].
  apply list_elem_of_singleton in Hc as ->. reflexivity.
Qed.

Lemma paris_run_fresh : NoDup (uuids cpython paris_run).
Proof. vm_compute. apply NoDup_singleton. Qed.


Lemma listed_theme_is_accepted_witness :
  get_themes two_themes "themes" theme_files
  = Ret (Response (JList [theme_entry "noir" noir_file]) 200) ∧
  entry_id (theme_entry "noir" noir_file) = Some (JStr "noir") ∧
  ∃ theme_name,
    JStr "noir" = JStr theme_name ∧
    theme_in (JStr "noir") ["noir"; "broken"] = Some theme_name.
Proof.
  split; [reflexivity|]. split; [reflexivity|].
  exact (listed_theme_is_accepted two_themes "themes" theme_files
           [theme_entry "noir" noir_file] ["noir"; "broken"]
           (theme_entry "noir" noir_file) (JStr "noir")
           eq_refl eq_refl (list_elem_of_here _ _) eq_refl).
Defined.

Lemma update_job_status_never_clears_witness :
  jobs one_job !! "job-1" = Some (new_job paris) ∧
  ∃ j', update_job_status "job-1" "complete" (Some 100) (Some "Paris_noir.png") None
          (jobs one_job) !! "job-1" = Some j' ∧
        job_progress j' = 100 ∧ job_status j' = "complete".
Proof.
  assert (Hj : jobs one_job !! "job-1" = Some (new_job paris)) by reflexivity.
  split; [exact Hj|].
  destruct (update_job_status_never_clears (jobs one_job) "job-1" "complete" (Some 100)
              (Some "Paris_noir.png") None (new_job paris) Hj)
    as (j' & Hj' & _ & _ & Hp & Hs).
  exists j'. split; [exact Hj'|]. split; [exact Hp | exact Hs].
Defined.

Lemma accepted_params_are_checked_witness :
  let w' := start_thread "job-1" paris (create_job "job-1" paris initial_world) in
  generate cpython poster_ok "job-1" (Ret tt) (JDict paris_request) initial_world
  = (Ret (jsonify_job_id "job-1"), w') ∧
  ∃ params available_themes,
    jobs w' !! "job-1" = Some (new_job params) ∧
    checked params ∧
    get_available_themes poster_ok = Ret available_themes ∧
    p_theme params ∈ available_themes.
Proof.
  intros w'.
  assert (H : generate cpython poster_ok "job-1" (Ret tt) (JDict paris_request)
                initial_world
              = (Ret (jsonify_job_id "job-1"), w')) by reflexivity.
  split; [exact H|].
  exact (accepted_params_are_checked cpython poster_ok "job-1" (Ret tt)
           (JDict paris_request) initial_world w' H).
Defined.

Lemma generate_defaults_witness :
  assoc_get "city" bare_request = Some (JStr " Paris ") ∧
  assoc_get "theme" bare_request = None ∧
  strip " Paris " = "Paris" ∧
  generate cpython poster_ok "job-1" (Ret tt) (JDict bare_request) initial_world
  = (Ret (jsonify_error "Theme 'feature_based' not found" 400), initial_world).
Proof.
  split; [reflexivity|]. split; [reflexivity|]. split; [reflexivity|].
  exact (generate_defaults cpython poster_ok "job-1" (Ret tt) bare_request initial_world
           " Paris " "France" ["noir"] eq_refl eq_refl
           ltac:(vm_compute; discriminate) ltac:(vm_compute; discriminate)
           eq_refl eq_refl eq_refl eq_refl).
Defined.

Lemma distance_accepted_iff_witness :
  theme_in (field paris_request "theme" (JStr "feature_based")) ["noir"] = Some "noir" ∧
  py_int cpython (field paris_request "distance" (JInt 10000)) = Ret 10000 ∧
  jobs (generate cpython poster_ok "job-1" (Ret tt) (JDict paris_request) initial_world).2
    !! "job-1"
  = Some (new_job (JobParams "Paris" "France" "noir" 10000 (or_None ""))).
Proof.
  split; [reflexivity|]. split; [reflexivity|].
  destruct (distance_accepted_iff cpython poster_ok "job-1" (Ret tt) paris_request
              initial_world "Paris" "France" "" "noir" ["noir"]
              eq_refl eq_refl eq_refl eq_refl
              ltac:(discriminate) ltac:(discriminate) eq_refl) as (_ & _ & Hstored).
  apply (Hstored 10000 eq_refl). lia.
Defined.

Lemma get_status_tells_record_witness :
  get_status "job-1" (jobs one_job)
  = get_status "job-1" (<["job-2" := new_job paris]> (jobs one_job)) ∧
  jobs one_job !! "job-1" = <["job-2" := new_job paris]> (jobs one_job) !! "job-1".
Proof.
  assert (H : get_status "job-1" (jobs one_job)
              = get_status "job-1" (<["job-2" := new_job paris]> (jobs one_job)))
    by (vm_compute; reflexivity).
  split; [exact H|].
  exact (get_status_tells_record "job-1" _ _ H).
Defined.

Lemma run_generation_absent_job_witness :
  jobs one_job !! "job-2" = None ∧
  jobs (run_generation poster_ok "job-2" "Paris" "France" "noir" 10000 None one_job).2
  = jobs one_job.
Proof.
  split; [reflexivity|].
  exact (run_generation_absent_job poster_ok "job-2" "Paris" "France" "noir" 10000 None
           one_job eq_refl).
Defined.

Lemma record_is_well_formed_witness :
  NoDup (uuids cpython paris_run) ∧
  jobs (world_after cpython paris_run) !! "job-1"
  = Some (Job "complete" 100 (Some "Paris_noir.png") None paris) ∧
  "complete" ∈ statuses ∧
  (is_Some (Some "Paris_noir.png") ↔ "complete" = "complete").
Proof.
  assert (Hj : jobs (world_after cpython paris_run) !! "job-1"
               = Some (Job "complete" 100 (Some "Paris_noir.png") None paris))
    by (vm_compute; reflexivity).
  split; [exact paris_run_fresh|]. split; [exact Hj|].
  destruct (record_is_well_formed cpython paris_run "job-1" _ paris_run_fresh Hj)
    as (Hs & _ & _ & _ & Hr & _).
  split; [exact Hs | exact Hr].
Defined.

Lemma progress_never_decreases_witness :
  let ls := [Submit poster_ok "job-1" (Ret tt) (JDict paris_request)] in
  let ls' := [Run 0 poster_ok; Run 0 poster_ok] in
  NoDup (uuids cpython (ls ++ ls')) ∧
  jobs (world_after cpython ls) !! "job-1" = Some (new_job paris) ∧
  jobs (world_after cpython (ls ++ ls')) !! "job-1"
  = Some (Job "loading_theme" 20 None None paris) ∧
  0 <= 20.
Proof.
  intros ls ls'.
  assert (Hnd : NoDup (uuids cpython (ls ++ ls')))
    by (vm_compute; apply NoDup_singleton).
  assert (Hj : jobs (world_after cpython ls) !! "job-1" = Some (new_job paris))
    by (vm_compute; reflexivity).
  assert (Hj' : jobs (world_after cpython (ls ++ ls')) !! "job-1"
                = Some (Job "loading_theme" 20 None None paris))
    by (vm_compute; reflexivity).
  split; [exact Hnd|]. split; [exact Hj|]. split; [exact Hj'|].
  exact (progress_never_decreases cpython ls ls' "job-1" _ _ Hnd Hj Hj').
Defined.



Lemma result_is_a_file_name_witness :
  NoDup (uuids cpython paris_run) ∧
  jobs (world_after cpython paris_run) !! "job-1"
  = Some (Job "complete" 100 (Some "Paris_noir.png") None paris) ∧
  has_slash "Paris_noir.png" = false.
Proof.
  assert (Hj : jobs (world_after cpython paris_run) !! "job-1"
               = Some (Job "complete" 100 (Some "Paris_noir.png") None paris))
    by (vm_compute; reflexivity).
  split; [exact paris_run_fresh|]. split; [exact Hj|].
  destruct (result_is_a_file_name cpython paris_run "job-1" "Paris_noir.png" _
              paris_run_fresh Hj eq_refl) as (Hno & _).
  exact Hno.
Defined.

Lemma non_text_field_is_unhandled_witness :
  is_text (field [("country", JNull)] "country" (JStr "")) = false ∧
  generate cpython poster_ok "job-1" (Ret tt) (JDict [("country", JNull)]) initial_world
  = (Raise AttributeError, initial_world).
Proof.
  split; [reflexivity|].
  exact (non_text_field_is_unhandled cpython poster_ok "job-1" (Ret tt)
           (JDict [("country", JNull)]) initial_world (or_intror eq_refl)).
Defined.

Lemma jobs_lock_excludes_witness :
  let s := run_schedule [0; 0; 0; 1]%nat update_and_query in
  jobs_lock update_and_query = None ∧
  pool s !! 0%nat = Some (Updating "job-1" "geocoding" (Some 10) None None (U_write 1)) ∧
  0%nat = 0%nat ∧ jobs_lock s = Some 0%nat.
Proof.
  intros s.
  assert (Hk : pool s !! 0%nat
               = Some (Updating "job-1" "geocoding" (Some 10) None None (U_write 1)))
    by (vm_compute; reflexivity).
  split; [reflexivity|]. split; [exact Hk|].
  exact (jobs_lock_excludes [0; 0; 0; 1]%nat update_and_query 0 0 _ _ eq_refl
           update_and_query_unstarted Hk eq_refl Hk eq_refl).
Defined.

Lemma locked_lookups_never_miss_witness :
  let s := run_schedule [0; 0; 0; 1]%nat update_and_query in
  jobs_lock update_and_query = None ∧
  pool s !! 0%nat = Some (Updating "job-1" "geocoding" (Some 10) None None (U_write 1)) ∧
  is_Some (table s !! "job-1").
Proof.
  intros s.
  assert (Hk : pool s !! 0%nat
               = Some (Updating "job-1" "geocoding" (Some 10) None None (U_write 1)))
    by (vm_compute; reflexivity).
  split; [reflexivity|]. split; [exact Hk|].
  exact (locked_lookups_never_miss [0; 0; 0; 1]%nat update_and_query 0 _ eq_refl
           update_and_query_unstarted Hk).
Defined.

Lemma no_update_is_lost_witness :
  jobs_lock update_and_query = None ∧
  jobs_lock (run_schedule query_during_update update_and_query) = None ∧
  ∃ order,
    NoDup order ∧
    table (run_schedule query_during_update update_and_query)
    = replay (pool update_and_query) order (table update_and_query).
Proof.
  assert (Hfree : jobs_lock (run_schedule query_during_update update_and_query) = None)
    by (vm_compute; reflexivity).
  split; [reflexivity|]. split; [exact Hfree|].
  destruct (no_update_is_lost query_during_update update_and_query eq_refl
              update_and_query_unstarted Hfree) as (order & Hnd & _ & Htbl & _).
  exists order. split; [exact Hnd | exact Htbl].
Defined.

Lemma jobs_lock_never_deadlocks_witness :
  jobs_lock update_and_query = None ∧
  ∃ more, ∀ c, c ∈ pool (run_schedule ([0; 0; 0; 1]%nat ++ more) update_and_query) →
               returned c = true.
Proof.
  split; [reflexivity|].
  destruct (jobs_lock_never_deadlocks [0; 0; 0; 1]%nat update_and_query eq_refl
              update_and_query_unstarted) as (_ & _ & Hmore).
  exact Hmore.
Defined.
